(** * Glance: the polling / dedup / extract / summarize loop of [glance.py]

    A shallow embedding of [extract_text_from_url], [summarize_text], [main]
    and the script entry point, together with the properties of the loop:
    idempotence, failure handling, filtering of invalid addresses, the shape
    of the summarization request and the shutdown path.

    The program talks to three collaborators: the Selenium driver, the OpenAI
    client and the terminal.  Each call to one of them is a primitive
    operation whose result is chosen by a [World]; the call and its result
    are appended to a history, so that a run is observed through the list of
    the operations it performed, in order. *)

From Stdlib Require Import Ascii String.
From stdpp Require Import base gmap sets list strings.

(** ** Python values used by the script *)

(** The exceptions the script can meet, split the way [except Exception]
    splits them: instances of [Exception] (carrying [str(e)]), and the two
    [BaseException] classes that are not, [KeyboardInterrupt] and
    [SystemExit]. *)
Inductive exn : Type :=
| PyException (msg : string)
| KeyboardInterrupt
| SystemExit.

Definition is_Exception (e : exn) : bool :=
  match e with
  | PyException _ => true
  | KeyboardInterrupt | SystemExit => false
  end.

Definition is_KeyboardInterrupt (e : exn) : bool :=
  match e with
  | KeyboardInterrupt => true
  | PyException _ | SystemExit => false
  end.

(** [str(e)], as the f-strings of the error messages print it. *)
Definition str_exn (e : exn) : string :=
  match e with
  | PyException msg => msg
  | KeyboardInterrupt | SystemExit => ""
  end.

(** The line feed written [\n] in the source. *)
Definition nl : string := String "010"%char EmptyString.

(** Truth value of a [str]: only the empty string is false. *)
Definition truthy (s : string) : bool :=
  match s with
  | EmptyString => false
  | String _ _ => true
  end.

(** [s.startswith(p)]. *)
Definition startswith (s p : string) : bool := String.prefix p s.

(** One element of the [messages] list of a chat completion request. *)
Record message : Type := Message { role : string; content : string }.

(** A chat completion response, reduced to what the script reads of it:
    the [message.content] of each element of [response.choices]
    ([None] when the service sent no content). *)
Definition response : Type := list (option string).

(** [f"{v}"] for a value that is a [str] or [None]. *)
Definition fmt (v : option string) : string :=
  match v with
  | Some s => s
  | None => "None"
  end.

(** A handle on a page element, as [find_element] returns it. *)
Definition element : Type := nat.

(** ** Results of running a piece of the script *)

(** [Returned]: normal completion.  [Raised]: an exception is propagating.
    [Continued]: a [continue] statement is travelling to the enclosing loop.
    [OutOfFuel]: the bounded unrolling of [while True] was exhausted while
    the loop was still running; no handler intercepts it. *)
Inductive outcome (A : Type) : Type :=
| Returned (a : A)
| Raised (e : exn)
| Continued
| OutOfFuel.
Arguments Returned {A} a.
Arguments Raised {A} e.
Arguments Continued {A}.
Arguments OutOfFuel {A}.

(** What a collaborator answers to a call: a value, or an exception. *)
Inductive reply (A : Type) : Type :=
| Ok (a : A)
| Fail (e : exn).
Arguments Ok {A} a.
Arguments Fail {A} e.

Definition outcome_of {A} (r : reply A) : outcome A :=
  match r with
  | Ok a => Returned a
  | Fail e => Raised e
  end.

(** ** Observable operations *)

Inductive event : Type :=
| EvCurrentUrl (r : reply string)
    (* driver.current_url *)
| EvGet (url : string) (r : reply unit)
    (* driver.get(url) *)
| EvFindElement (by_ value : string) (r : reply element)
    (* driver.find_element(by, value) *)
| EvText (el : element) (r : reply string)
    (* el.text *)
| EvCreate (model : string) (messages : list message) (r : reply response)
    (* client.chat.completions.create(model=..., messages=...) *)
| EvQuit (r : reply unit)
    (* driver.quit() *)
| EvSleep (secs : nat) (interrupted : bool)
    (* time.sleep(secs) *)
| EvPrint (line : string) (r : reply unit).
    (* print(line) *)

(** The collaborators.  A foreign call, [print] included, returns a value
    or raises any exception ([OSError] or [UnicodeEncodeError] for a
    [print], for instance); which one may depend on everything that
    happened before.  [time.sleep] completes, unless the interrupt signal
    arrives while it runs, which Python raises as [KeyboardInterrupt]. *)
Record World : Type := {
  w_current_url : list event -> reply string;
  w_get : list event -> string -> reply unit;
  w_find_element : list event -> string -> string -> reply element;
  w_text : list event -> element -> reply string;
  w_create : list event -> string -> list message -> reply response;
  w_quit : list event -> reply unit;
  w_sleep : list event -> nat -> bool;
  w_print : list event -> string -> reply unit
}.

(** ** Program state and the monad of the script *)

Record state : Type := State {
  processed_urls : gset string;
  history : list event
}.

Definition M (A : Type) : Type := state -> state * outcome A.

Definition ret {A} (a : A) : M A := fun st => (st, Returned a).

Definition bind {A B} (m : M A) (k : A -> M B) : M B :=
  fun st =>
    match m st with
    | (st', Returned a) => k a st'
    | (st', Raised e) => (st', Raised e)
    | (st', Continued) => (st', Continued)
    | (st', OutOfFuel) => (st', OutOfFuel)
    end.

Declare Scope script_scope.
Delimit Scope script_scope with script.
Notation "'let*' x := m 'in' k" := (bind m (fun x => k))
  (at level 10, x name, m at level 100, k at level 200) : script_scope.
Notation "m >> k" := (bind m (fun _ => k))
  (at level 90, right associativity) : script_scope.
Open Scope script_scope.

(** [raise e] and [continue]. *)
Definition raise {A} (e : exn) : M A := fun st => (st, Raised e).
Definition continue_ {A} : M A := fun st => (st, Continued).

(** [try: body / except Exception as e: handler e]. *)
Definition try_except_Exception {A} (body : M A) (handler : exn -> M A) : M A :=
  fun st =>
    match body st with
    | (st', Raised e) =>
        if is_Exception e then handler e st' else (st', Raised e)
    | other => other
    end.

(** [try: body / except KeyboardInterrupt: handler]. *)
Definition try_except_KeyboardInterrupt {A} (body : M A) (handler : M A) : M A :=
  fun st =>
    match body st with
    | (st', Raised e) =>
        if is_KeyboardInterrupt e then handler st' else (st', Raised e)
    | other => other
    end.

(** [try: body / finally: cleanup].  The cleanup runs however the body
    ended; what it raises replaces the outcome of the body. *)
Definition try_finally {A} (body : M A) (cleanup : M unit) : M A :=
  fun st =>
    match body st with
    | (st', OutOfFuel) => (st', OutOfFuel)
    | (st', r) =>
        match cleanup st' with
        | (st'', Returned _) => (st'', r)
        | (st'', Raised e) => (st'', Raised e)
        | (st'', Continued) => (st'', Continued)
        | (st'', OutOfFuel) => (st'', OutOfFuel)
        end
    end.

(** [if c: body]. *)
Definition when (c : bool) (body : M unit) : M unit :=
  if c then body else ret tt.

(** One pass through a loop body: a [continue] ends the pass normally. *)
Definition iteration (body : M unit) : M unit :=
  fun st =>
    match body st with
    | (st', Continued) => (st', Returned tt)
    | other => other
    end.

(** [while True: body], unrolled [fuel] times.  The loop has no [break]:
    it ends by an exception, or is still running when the fuel is spent. *)
Fixpoint while_True (fuel : nat) (body : M unit) : M unit :=
  match fuel with
  | O => fun st => (st, OutOfFuel)
  | S fuel' => iteration body >> while_True fuel' body
  end.

(** A primitive operation appends itself and its result to the history. *)
Definition record (ev : event) (st : state) : state :=
  State (processed_urls st) (history st ++ [ev]).

Definition interrupt_of (interrupted : bool) : outcome unit :=
  if interrupted then Raised KeyboardInterrupt else Returned tt.

Definition foreign {A} (ask : list event -> reply A)
    (ev : reply A -> event) : M A :=
  fun st => let r := ask (history st) in (record (ev r) st, outcome_of r).

Definition local (ask : list event -> bool) (ev : bool -> event) : M unit :=
  fun st => let i := ask (history st) in (record (ev i) st, interrupt_of i).

Section Script.

Variable w : World.

(** *** Primitive operations *)

Definition driver_current_url : M string :=
  foreign (w_current_url w) EvCurrentUrl.

Definition driver_get (url : string) : M unit :=
  foreign (fun h => w_get w h url) (EvGet url).

Definition driver_find_element (by_ value : string) : M element :=
  foreign (fun h => w_find_element w h by_ value) (EvFindElement by_ value).

Definition element_text (el : element) : M string :=
  foreign (fun h => w_text w h el) (EvText el).

Definition chat_completions_create (model : string)
    (messages : list message) : M response :=
  foreign (fun h => w_create w h model messages) (EvCreate model messages).

Definition driver_quit : M unit :=
  foreign (w_quit w) EvQuit.

Definition time_sleep (secs : nat) : M unit :=
  local (fun h => w_sleep w h secs) (EvSleep secs).

Definition print (line : string) : M unit :=
  foreign (fun h => w_print w h line) (EvPrint line).

(** [processed_urls = set()], [url in processed_urls] and
    [processed_urls.add(url)]. *)
Definition processed_urls_init : M unit :=
  fun st => (State ∅ (history st), Returned tt).

Definition processed_urls_contains (url : string) : M bool :=
  fun st => (st, Returned (bool_decide (url ∈ processed_urls st))).

Definition processed_urls_add (url : string) : M unit :=
  fun st => (State ({[url]} ∪ processed_urls st) (history st), Returned tt).

(** [l[0]]: [IndexError] on the empty list. *)
Definition index0 {A} (l : list A) : M A :=
  match l with
  | x :: _ => ret x
  | [] => raise (PyException "list index out of range")
  end.

(** *** The functions of the script *)

(** [By.TAG_NAME]. *)
Definition By_TAG_NAME : string := "tag name".

Definition extract_text_from_url (url : string) : M string :=
  driver_get url >>
  time_sleep 2 >>
  let* body := driver_find_element By_TAG_NAME "body" in
  element_text body.

(** [summarize_text(text, model="gpt-4")]: [None] stands for an omitted
    [model] argument. *)
Definition summarize_text (text : string) (model : option string)
    : M (option string) :=
  let model := default "gpt-4" model in
  let* response :=
    chat_completions_create model
      [Message "user" ("Summarize this text:" +:+ nl +:+ text)] in
  let* choice := index0 response in
  ret choice.

(** The body of [while True] in [main]. *)
Definition loop_body : M unit :=
  let* current_url :=
    try_except_Exception driver_current_url (fun e =>
      print ("Error retrieving current URL: " +:+ str_exn e) >>
      time_sleep 5 >>
      continue_) in
  when (negb (truthy current_url) || startswith current_url "about:")
    (time_sleep 5 >> continue_) >>
  let* known := processed_urls_contains current_url in
  when (negb known)
    (print ("Processing new URL: " +:+ current_url) >>
     let* extracted_text :=
       try_except_Exception (extract_text_from_url current_url) (fun e =>
         print ("Error extracting text from '" +:+ current_url +:+ "': "
                +:+ str_exn e) >>
         time_sleep 5 >>
         continue_) in
     try_except_Exception
       (let* summary := summarize_text extracted_text None in
        print ("Summary:" +:+ nl +:+ fmt summary +:+ nl))
       (fun e =>
         print ("Error summarizing text: " +:+ str_exn e) >>
         time_sleep 5 >>
         continue_) >>
     processed_urls_add current_url) >>
  time_sleep 5.

(** One tick of the loop. *)
Definition tick : M unit := iteration loop_body.

Definition main (fuel : nat) : M unit :=
  processed_urls_init >>
  print (nl +:+ "Browser is open. Feel free to browse freely within the Selenium window.") >>
  print "The script will automatically scrape and summarize the text of any new page you visit." >>
  while_True fuel loop_body.

(** The [if __name__ == "__main__":] block. *)
Definition entry_point (fuel : nat) : M unit :=
  try_finally
    (try_except_KeyboardInterrupt (main fuel) (print "Exiting..."))
    driver_quit.

End Script.

Definition initial_state : state := State ∅ [].

(** ** Reading a history *)

(** The events a computation added, between its start and its end. *)
Definition new_events (st st' : state) : list event :=
  drop (length (history st)) (history st').

(** Operations of the extraction stage on the driver. *)
Definition is_extraction (ev : event) : bool :=
  match ev with
  | EvGet _ _ | EvFindElement _ _ _ | EvText _ _ => true
  | _ => false
  end.

(** A call of the summarization service. *)
Definition is_summarization (ev : event) : bool :=
  match ev with
  | EvCreate _ _ _ => true
  | _ => false
  end.

(** A navigation command sent to the browser. *)
Definition is_navigation (ev : event) : bool :=
  match ev with
  | EvGet _ _ => true
  | _ => false
  end.

(** The [print] of a summary, completed or not. *)
Definition is_summary_print (ev : event) : bool :=
  match ev with
  | EvPrint line _ => startswith line ("Summary:" +:+ nl)
  | _ => false
  end.



Definition is_poll (ev : event) : bool :=
  match ev with
  | EvCurrentUrl _ => true
  | _ => false
  end.

Definition count (p : event -> bool) (h : list event) : nat :=
  length (List.filter p h).

Definition none_of (p : event -> bool) (h : list event) : bool :=
  forallb (fun ev => negb (p ev)) h.

(** An address the loop accepts: not empty, not an [about:] page. *)
Definition valid_address (url : string) : bool :=
  truthy url && negb (startswith url "about:").

(** The operations of a tick that reads [u], extracts [text] from the
    element [el], receives the choices [c :: rest] and prints the summary:
    everything up to the moment [u] is marked as processed. *)
Definition success_events (u : string) (el : element) (text : string)
    (c : option string) (rest : response) : list event :=
  [EvCurrentUrl (Ok u);
   EvPrint ("Processing new URL: " +:+ u) (Ok tt);
   EvGet u (Ok tt);
   EvSleep 2 false;
   EvFindElement By_TAG_NAME "body" (Ok el);
   EvText el (Ok text);
   EvCreate "gpt-4" [Message "user" ("Summarize this text:" +:+ nl +:+ text)]
     (Ok (c :: rest));
   EvPrint ("Summary:" +:+ nl +:+ fmt c +:+ nl) (Ok tt)].

(** [u] was read, extracted, summarized and its summary printed, in one
    uninterrupted stretch of the history. *)
Definition summarized_in (u : string) (h : list event) : Prop :=
  exists pre el text c rest post,
    h = pre ++ success_events u el text c rest ++ post.

(** The tick that starts in [st] and reads [u] only waits: it performs the
    read and the five second sleep, nothing else, and leaves the set of
    processed addresses as it is. *)
Definition only_waits (w : World) (st : state) (u : string) : Prop :=
  let i := w_sleep w (history st ++ [EvCurrentUrl (Ok u)]) 5 in
  tick w st =
    (State (processed_urls st)
       (history st ++ [EvCurrentUrl (Ok u); EvSleep 5 i]),
     interrupt_of i).

(** [Q pre ev] holds of every event [ev] of [h], [pre] being the part of
    [h] that comes before it. *)
Definition each_event (Q : list event -> event -> Prop)
    (h : list event) : Prop :=
  forall pre ev post, h = pre ++ ev :: post -> Q pre ev.

Fixpoint each_event_from (Q : list event -> event -> Prop)
    (pre h : list event) : Prop :=
  match h with
  | [] => True
  | ev :: h' => Q pre ev /\ each_event_from Q (pre ++ [ev]) h'
  end.

(** [Q] looks only at the events just before the one it judges. *)
Definition local_property (Q : list event -> event -> Prop) : Prop :=
  forall h pre ev, Q pre ev -> Q (h ++ pre) ev.

(** The request [summarize_text] builds for [text] when [main] calls
    it: the model and the list of messages. *)
Definition summarization_request (text : string) : string * list message :=
  ("gpt-4", [Message "user" ("Summarize this text:" +:+ nl +:+ text)]).

(** A call of the service comes right after the read of the page text and
    carries the request built from that text. *)
Definition fixed_request (pre : list event) (ev : event) : Prop :=
  match ev with
  | EvCreate model messages _ =>
      exists el text,
        last pre = Some (EvText el (Ok text)) /\
        (model, messages) = summarization_request text
  | _ => True
  end.

Definition all_summarized (st : state) : Prop :=
  forall u, u ∈ processed_urls st -> summarized_in u (history st).

(** The exception a stage raises at an operation: the one a foreign call
    answered with, or the [IndexError] of [response.choices[0]] when the
    service answered with no choice. *)
Definition failure_of (ev : event) : option exn :=
  match ev with
  | EvCurrentUrl (Fail e) | EvGet _ (Fail e) | EvFindElement _ _ (Fail e)
  | EvText _ (Fail e) | EvCreate _ _ (Fail e) => Some e
  | EvCreate _ _ (Ok []) => Some (PyException "list index out of range")
  | _ => None
  end.

(** The operation was ended by an interruption of the process: a sleep
    cut by [KeyboardInterrupt], or a print or another foreign call that
    raised an exception which is not an [Exception]. *)
Definition interrupts (ev : event) : bool :=
  match ev with
  | EvSleep _ i => i
  | EvPrint _ (Fail e) => negb (is_Exception e)
  | EvPrint _ (Ok _) => false
  | _ =>
      match failure_of ev with
      | Some e => negb (is_Exception e)
      | None => false
      end
  end.

(** The address a tick read, from the events of the tick. *)
Definition address_read (evs : list event) : string :=
  match evs with
  | EvCurrentUrl (Ok u) :: _ => u
  | _ => ""
  end.

(** The line the loop prints when the operation [ev] raised [e] while the
    current address was [u]. *)
Definition error_log (u : string) (ev : event) (e : exn) : string :=
  match ev with
  | EvCurrentUrl _ => "Error retrieving current URL: " +:+ str_exn e
  | EvCreate _ _ _ => "Error summarizing text: " +:+ str_exn e
  | _ => "Error extracting text from '" +:+ u +:+ "': " +:+ str_exn e
  end.

(** Every failed operation among [evs] is followed by its error line and
    the five second sleep, and by nothing else. *)
Definition failures_logged (evs : list event) : Prop :=
  forall pre ev post e,
    evs = pre ++ ev :: post ->
    failure_of ev = Some e ->
    post = [EvPrint (error_log (address_read evs) ev e) (Ok tt);
            EvSleep 5 false].

Fixpoint each_with_rest (Q : event -> list event -> Prop)
    (evs : list event) : Prop :=
  match evs with
  | [] => True
  | ev :: rest => Q ev rest /\ each_with_rest Q rest
  end.

(** A navigation goes to the address that was just read and announced;
    the text is read from the body found after that navigation and the two
    second sleep. *)
Definition reactive_navigation (pre : list event) (ev : event) : Prop :=
  match ev with
  | EvGet url _ =>
      exists pre',
        pre = pre' ++ [EvCurrentUrl (Ok url);
                       EvPrint ("Processing new URL: " +:+ url) (Ok tt)]
  | EvText el _ =>
      exists url pre',
        pre = pre' ++ [EvCurrentUrl (Ok url);
                       EvPrint ("Processing new URL: " +:+ url) (Ok tt);
                       EvGet url (Ok tt);
                       EvSleep 2 false;
                       EvFindElement By_TAG_NAME "body" (Ok el)]
  | _ => True
  end.



(** The events of a tick that runs the whole pipeline for [A]: the read,
    the announcement, then (unless the announcement was interrupted) the
    navigation that opens the extraction, and, when the extraction yields
    a text, the call of the service on that text right after it. *)
Definition full_pipeline (A : string) (evs : list event) : Prop :=
  exists i rest,
    evs = EvCurrentUrl (Ok A)
          :: EvPrint ("Processing new URL: " +:+ A) i :: rest /\
    (i = Ok tt ->
     exists r rest',
       rest = EvGet A r :: rest' /\
       forall pre el text post,
         rest' = pre ++ EvText el (Ok text) :: post ->
         exists r_c post',
           post = EvCreate "gpt-4"
                    [Message "user" ("Summarize this text:" +:+ nl +:+ text)]
                    r_c :: post').

(** The operation succeeded: it was not interrupted and raised nothing. *)
Definition clean (ev : event) : bool :=
  negb (interrupts ev) &&
  match failure_of ev with
  | Some _ => false
  | None => true
  end &&
  match ev with
  | EvPrint _ (Fail _) => false
  | _ => true
  end.

Definition p1 : string := "https://x.test/p1".
Definition p2 : string := "https://x.test/p2".

(** The browser reports the addresses [urls], one per read, in order. *)
Definition observes_in_sequence (w : World) (urls : list string) : Prop :=
  forall h u, urls !! count is_poll h = Some u -> w_current_url w h = Ok u.

(** Extraction and summarization succeed whenever they are invoked, and
    nothing interrupts the program. *)
Definition always_succeeds (w : World) : Prop :=
  (forall h url, w_get w h url = Ok tt) /\
  (forall h by_ value, exists el, w_find_element w h by_ value = Ok el) /\
  (forall h el, exists text, w_text w h el = Ok text) /\
  (forall h model messages,
     exists c rest, w_create w h model messages = Ok (c :: rest)) /\
  (forall h secs, w_sleep w h secs = false) /\
  (forall h line, w_print w h line = Ok tt).

(** The two lines [main] prints before it enters the loop. *)
Definition greeting : list event :=
  [EvPrint (nl +:+ "Browser is open. Feel free to browse freely within the Selenium window.") (Ok tt);
   EvPrint "The script will automatically scrape and summarize the text of any new page you visit." (Ok tt)].

Definition scenario : list string := [""; "about:blank"; p1; p1; p2].

(** The operation went undisturbed: no interruption cut it and, for a
    [print], it completed. *)
Definition undisturbed (ev : event) : bool :=
  negb (interrupts ev) &&
  match ev with
  | EvPrint _ (Fail _) => false
  | _ => true
  end.

(** Every operation of the three stages that failed with an [Exception]
    is followed by the print of its error line and, when that print
    completes, by the five second sleep that ends the tick. *)
Definition failures_caught (evs : list event) : Prop :=
  forall pre ev post e,
    evs = pre ++ ev :: post ->
    failure_of ev = Some e ->
    is_Exception e = true ->
    exists p tail,
      post = EvPrint (error_log (address_read evs) ev e) p :: tail /\
      (p = Ok tt -> exists i, tail = [EvSleep 5 i]).

(** What can end the loop with the exception [e], [h] being the history
    at that moment: an interruption, that is an exception which is not an
    [Exception]; or a [print] of the loop that no [try] encloses, the
    announcement of an address or an error line, which raised [e] as the
    last operation. *)
Definition ended_by (h : list event) (e : exn) : Prop :=
  is_Exception e = false \/
  exists line,
    last h = Some (EvPrint line (Fail e)) /\
    is_summary_print (EvPrint line (Fail e)) = false.

(** ** Example worlds *)

(** A user who visits [urls] one after the other, one address per poll,
    and presses Ctrl-C once the last one was polled.  Every page has a
    body, and the service always answers with one choice. *)
Definition browsing (urls : list string) : World := {|
  w_current_url h :=
    match urls !! count is_poll h with
    | Some u => Ok u
    | None => Fail KeyboardInterrupt
    end;
  w_get h url := Ok tt;
  w_find_element h by_ value := Ok 7;
  w_text h el := Ok "page text";
  w_create h model messages := Ok [Some "a summary"];
  w_quit h := Ok tt;
  w_sleep h secs := false;
  w_print h line := Ok tt
|}.

(** The same user, with a browser whose first navigation times out. *)
Definition flaky_browsing (urls : list string) : World := {|
  w_current_url := w_current_url (browsing urls);
  w_get h url :=
    if bool_decide (count is_navigation h = 0)
    then Fail (PyException "timeout") else Ok tt;
  w_find_element := w_find_element (browsing urls);
  w_text := w_text (browsing urls);
  w_create := w_create (browsing urls);
  w_quit := w_quit (browsing urls);
  w_sleep := w_sleep (browsing urls);
  w_print := w_print (browsing urls)
|}.


(** A browser whose session is lost: every read of the address fails. *)
Definition lost_session : World := {|
  w_current_url h := Fail (PyException "no such window");
  w_get := w_get (browsing []);
  w_find_element := w_find_element (browsing []);
  w_text := w_text (browsing []);
  w_create := w_create (browsing []);
  w_quit := w_quit (browsing []);
  w_sleep := w_sleep (browsing []);
  w_print := w_print (browsing [])
|}.

(** The session is lost, and the terminal is closed once the loop has
    started: from the first read of the address on, every [print] raises
    [OSError]. *)
Definition closed_terminal : World := {|
  w_current_url := w_current_url lost_session;
  w_get := w_get lost_session;
  w_find_element := w_find_element lost_session;
  w_text := w_text lost_session;
  w_create := w_create lost_session;
  w_quit := w_quit lost_session;
  w_sleep := w_sleep lost_session;
  w_print h line :=
    if bool_decide (count is_poll h = 0) then Ok tt
    else Fail (PyException "[Errno 32] Broken pipe")
|}.

(** ** Further vocabulary for the histories *)

(** A five second sleep, completed or not, and a completed one. *)
Definition is_wait (ev : event) : bool :=
  match ev with
  | EvSleep secs _ => Nat.eqb secs 5
  | _ => false
  end.

Definition is_completed_wait (ev : event) : bool :=
  match ev with
  | EvSleep secs false => Nat.eqb secs 5
  | _ => false
  end.

(** A summary whose [print] completed. *)
Definition is_printed_summary (ev : event) : bool :=
  match ev with
  | EvPrint line (Ok _) => startswith line ("Summary:" +:+ nl)
  | _ => false
  end.

(** What [extract_text_from_url(url)] does when nothing fails. *)
Definition extraction_events (url : string) (el : element)
    (text : string) : list event :=
  [EvGet url (Ok tt);
   EvSleep 2 false;
   EvFindElement By_TAG_NAME "body" (Ok el);
   EvText el (Ok text)].

(** The pacing of a history: at most one read of the address more than
    completed five second sleeps, no more navigations than reads, no more
    calls of the service than navigations. *)
Definition paced (h : list event) : Prop :=
  count is_poll h <= count is_completed_wait h + 1 /\
  count is_navigation h <= count is_poll h /\
  count is_summarization h <= count is_navigation h.

(** The pacing between two ticks: as many reads as completed sleeps. *)
Definition paced_between_ticks (st : state) : Prop :=
  count is_poll (history st) = count is_completed_wait (history st) /\
  count is_navigation (history st) <= count is_poll (history st) /\
  count is_summarization (history st) <= count is_navigation (history st).


(** Every processed address is one the loop accepts. *)
Definition all_valid (st : state) : Prop :=
  forall u, u ∈ processed_urls st -> valid_address u = true.

(** As many processed addresses as printed summaries. *)
Definition summaries_recorded (st : state) : Prop :=
  size (processed_urls st) = count is_printed_summary (history st).

(** The page the browser was sent to last in [h], [page] when [h] has no
    navigation. *)
Fixpoint page_after (page : string) (h : list event) : string :=
  match h with
  | [] => page
  | EvGet url _ :: h' => page_after url h'
  | _ :: h' => page_after page h'
  end.

(** The addresses whose summary was printed to the end in [h], one entry
    per completed print and in the order of the prints: the address of a
    summary is the one of the navigation before it ([page] when [h] has
    none). *)
Fixpoint summarized_from (page : string) (h : list event) : list string :=
  match h with
  | [] => []
  | EvGet url _ :: h' => summarized_from url h'
  | ev :: h' =>
      (if is_printed_summary ev then [page] else []) ++
      summarized_from page h'
  end.

(** The processed addresses are the addresses whose summary was printed
    to the end, and none of these was printed twice. *)
Definition no_summary_twice (st : state) : Prop :=
  let l := summarized_from "" (history st) in
  NoDup l /\ processed_urls st = list_to_set l.

(** In a tick a call of the service comes after the read of an address,
    its announcement and the complete extraction of its page, and after
    nothing else. *)
Definition summarizes_extracted_page (pre : list event) (ev : event) : Prop :=
  is_summarization ev = true ->
  exists url el text,
    pre = [EvCurrentUrl (Ok url);
           EvPrint ("Processing new URL: " +:+ url) (Ok tt)] ++
          extraction_events url el text.

(** What follows an answer of the summarization service in a tick from
    [st] to [st'] with events [evs].  No choice: the [IndexError] is
    logged and the set is unchanged.  Some choices: the content of the
    first one is printed, as [None] when it has none, and once that print
    has completed the address the tick read is in the set. *)
Definition answer_handled (st st' : state) (evs : list event)
    (ev : event) (post : list event) : Prop :=
  match ev with
  | EvCreate _ _ (Ok []) =>
      processed_urls st' = processed_urls st /\
      exists i tail,
        post = EvPrint "Error summarizing text: list index out of range" i
               :: tail
  | EvCreate _ _ (Ok (c :: _)) =>
      exists i tail,
        post = EvPrint ("Summary:" +:+ nl +:+ fmt c +:+ nl) i :: tail /\
        (i = Ok tt ->
         processed_urls st' = {[address_read evs]} ∪ processed_urls st)
  | _ => True
  end.

(** The service answers with a single choice that has no content. *)
Definition silent_service (urls : list string) : World := {|
  w_current_url := w_current_url (browsing urls);
  w_get := w_get (browsing urls);
  w_find_element := w_find_element (browsing urls);
  w_text := w_text (browsing urls);
  w_create h model messages := Ok [None];
  w_quit := w_quit (browsing urls);
  w_sleep := w_sleep (browsing urls);
  w_print := w_print (browsing urls)
|}.

(** * Dependency installation

    [install_dependency] and [check_and_install_dependencies], which run
    when the script is loaded, before anything else.  They talk to the
    import system, to [pip] through [subprocess.check_call] and to the
    terminal; as for the loop, a world chooses the answers and the
    operations are recorded in a history. *)
Module Bootstrap.

(** The exceptions, split the way the two handlers split them:
    [ImportError] (and its subclasses), [subprocess.CalledProcessError],
    and any exception of another class, [KeyboardInterrupt] included. *)
Inductive raised : Type :=
| ImportError (msg : string)
| CalledProcessError (returncode : nat)
| Other (e : exn).

Inductive answer (A : Type) : Type :=
| Done (a : A)
| Threw (e : raised).
Arguments Done {A} a.
Arguments Threw {A} e.

Inductive event : Type :=
| EvImport (name : string) (r : answer unit)
    (* __import__(name) *)
| EvCheckCall (args : list string) (r : answer unit)
    (* subprocess.check_call(args) *)
| EvPrint (line : string) (r : reply unit).
    (* print(line) *)

(** The environment of the bootstrap: [sys.executable], [os.name], and
    the answers of the import system, of [pip] and of the terminal.  A
    [print] returns or raises an exception, which is neither an
    [ImportError] nor a [CalledProcessError]. *)
Record World : Type := {
  sys_executable : string;
  os_name : string;
  w_import : list event -> string -> answer unit;
  w_check_call : list event -> list string -> answer unit;
  w_print : list event -> string -> reply unit
}.

Definition B (A : Type) : Type := list event -> list event * answer A.

Definition ret {A} (a : A) : B A := fun h => (h, Done a).

Definition bind {A C} (m : B A) (k : A -> B C) : B C :=
  fun h =>
    match m h with
    | (h', Done a) => k a h'
    | (h', Threw e) => (h', Threw e)
    end.

(** [try: body / except ImportError: handler]. *)
Definition try_except_ImportError {A} (body handler : B A) : B A :=
  fun h =>
    match body h with
    | (h', Threw (ImportError _)) => handler h'
    | other => other
    end.

(** [try: body / except subprocess.CalledProcessError: handler]. *)
Definition try_except_CalledProcessError {A} (body handler : B A) : B A :=
  fun h =>
    match body h with
    | (h', Threw (CalledProcessError _)) => handler h'
    | other => other
    end.

(** [for x in l: body x]. *)
Fixpoint for_each {A} (l : list A) (body : A -> B unit) : B unit :=
  match l with
  | [] => ret tt
  | x :: l' => bind (body x) (fun _ => for_each l' body)
  end.

Definition BASE_DEPENDENCIES : list string := ["openai"; "selenium"].

Section Script.

Variable w : World.

Definition import_ (name : string) : B unit :=
  fun h => let r := w_import w h name in (h ++ [EvImport name r], r).

Definition check_call (args : list string) : B unit :=
  fun h => let r := w_check_call w h args in (h ++ [EvCheckCall args r], r).

Definition print (line : string) : B unit :=
  fun h =>
    let r := w_print w h line in
    (h ++ [EvPrint line r],
     match r with
     | Ok _ => Done tt
     | Fail e => Threw (Other e)
     end).

Definition install_dependency (package_name : string) : B unit :=
  try_except_CalledProcessError
    (bind (check_call [sys_executable w; "-m"; "pip"; "install"; package_name])
       (fun _ => print ("Successfully installed " +:+ package_name)))
    (print ("Failed to install " +:+ package_name
            +:+ ". Please install it manually.")).

Definition check_and_install_dependencies : B unit :=
  bind
    (for_each BASE_DEPENDENCIES (fun package =>
       try_except_ImportError (import_ package)
         (bind (print ("Dependency " +:+ package
                       +:+ " is not installed. Attempting to install..."))
            (fun _ => install_dependency package))))
    (fun _ =>
       let os_dep :=
         if String.eqb (os_name w) "nt" then "pygetwindow" else "pywinctl" in
       try_except_ImportError (import_ os_dep)
         (bind (print ("OS-specific dependency " +:+ os_dep
                       +:+ " is not installed. Attempting to install..."))
            (fun _ => install_dependency os_dep))).

End Script.

(** *** Reading a bootstrap history *)

(** The window manager library of the platform. *)
Definition os_dependency (w : World) : string :=
  if String.eqb (os_name w) "nt" then "pygetwindow" else "pywinctl".

(** The modules the bootstrap checks, in order. *)
Definition dependencies (w : World) : list string :=
  BASE_DEPENDENCIES ++ [os_dependency w].

(** The modules whose import was attempted. *)
Definition imported (evs : list event) : list string :=
  omap (fun ev => match ev with EvImport name _ => Some name | _ => None end)
       evs.

(** The modules whose import raised [ImportError]. *)
Definition missing (evs : list event) : list string :=
  omap (fun ev => match ev with
                  | EvImport name (Threw (ImportError _)) => Some name
                  | _ => None
                  end) evs.

(** The command lines given to [subprocess.check_call]. *)
Definition commands (evs : list event) : list (list string) :=
  omap (fun ev => match ev with EvCheckCall args _ => Some args | _ => None end)
       evs.

(** The command line that installs [package]. *)
Definition pip_install (w : World) (package : string) : list string :=
  [sys_executable w; "-m"; "pip"; "install"; package].

(** The exception an operation let out, if any. *)
Definition thrown (ev : event) : option raised :=
  match ev with
  | EvImport _ (Threw e) | EvCheckCall _ (Threw e) => Some e
  | EvPrint _ (Fail e) => Some (Other e)
  | _ => None
  end.

(** Nothing unexpected happens: an import succeeds or raises
    [ImportError], [pip] succeeds or raises [CalledProcessError], and
    every print completes. *)
Definition expected (ev : event) : bool :=
  match ev with
  | EvImport _ (Done _) | EvImport _ (Threw (ImportError _))
  | EvCheckCall _ (Done _) | EvCheckCall _ (Threw (CalledProcessError _))
  | EvPrint _ (Ok _) => true
  | _ => false
  end.

(** The events a bootstrap computation added to the history [h]. *)
Definition new_events (h h' : list event) : list event :=
  drop (length h) h'.

(** The line that announces the installation of [package]: the loop over
    [BASE_DEPENDENCIES] and the check of the library of the platform word
    it differently. *)
Definition announcement (package : string) : string :=
  if bool_decide (package ∈ BASE_DEPENDENCIES)
  then "Dependency " +:+ package
       +:+ " is not installed. Attempting to install..."
  else "OS-specific dependency " +:+ package
       +:+ " is not installed. Attempting to install...".

(** The line [install_dependency] prints once [pip] has answered [r]. *)
Definition report (package : string) (r : answer unit) : string :=
  match r with
  | Done _ => "Successfully installed " +:+ package
  | Threw _ => "Failed to install " +:+ package
               +:+ ". Please install it manually."
  end.

(** The place of the operation [ev] in a check that did [pre] before it
    and [post] after it.  An unexpected answer is the end of the check.  An
    import that raised [ImportError] is followed at once by the
    announcement and, when that print completed, by the [pip] command for
    the same module.  A [pip] command comes right after an import that
    raised [ImportError] and its completed announcement, it installs the
    module of that import, and its success or failure is reported next. *)
Definition in_order (w : World) (pre : list event) (ev : event)
    (post : list event) : Prop :=
  (expected ev = false -> post = []) /\
  match ev with
  | EvImport name (Threw (ImportError _)) =>
      exists p tail,
        post = EvPrint (announcement name) p :: tail /\
        (p = Ok tt ->
         exists r tail', tail = EvCheckCall (pip_install w name) r :: tail')
  | EvCheckCall args r =>
      exists pre' name msg,
        pre = pre' ++ [EvImport name (Threw (ImportError msg));
                       EvPrint (announcement name) (Ok tt)] /\
        args = pip_install w name /\
        (expected ev = true ->
         exists p tail, post = EvPrint (report name r) p :: tail)
  | _ => True
  end.

(** [Q pre ev post] for every event [ev] of [evs], [post] being the
    events after it and [pre] those before it, [before] included. *)
Fixpoint each_in_place (Q : list event -> event -> list event -> Prop)
    (before evs : list event) : Prop :=
  match evs with
  | [] => True
  | ev :: post => Q before ev post /\ each_in_place Q (before ++ [ev]) post
  end.

(** An orderly check of [packages] that ended with [out]: the imports are
    attempted in the order of [packages]; [pip] is run for the modules
    whose import raised [ImportError] and for no other, in the same order
    and with the command line that installs them; when the check returns,
    all of [packages] were tried and each missing one was given to [pip];
    when it raises, the exception is that of its last operation; it
    returns exactly when nothing unexpected happened; and every operation
    is in its place ([in_order]). *)
Definition orderly (w : World) (packages : list string)
    (evs : list event) (out : answer unit) : Prop :=
  imported evs `prefix_of` packages /\
  commands evs `prefix_of` (pip_install w <$> missing evs) /\
  (out = Done tt ->
   imported evs = packages /\
   commands evs = pip_install w <$> missing evs) /\
  (forall e, out = Threw e ->
     exists pre ev, evs = pre ++ [ev] /\ thrown ev = Some e) /\
  (forallb expected evs = true <-> out = Done tt) /\
  (forall pre ev post, evs = pre ++ ev :: post -> in_order w pre ev post).

(** A machine on which [selenium] is missing and cannot be installed. *)
Definition offline (os : string) : World := {|
  sys_executable := "/usr/bin/python3";
  os_name := os;
  w_import h name :=
    if String.eqb name "selenium" then Threw (ImportError "No module named 'selenium'")
    else Done tt;
  w_check_call h args := Threw (CalledProcessError 1);
  w_print h line := Ok tt
|}.

End Bootstrap.

(** ** Weakest preconditions for the script monad *)

Definition wp {A} (m : M A) (st : state)
    (Q : state -> outcome A -> Prop) : Prop :=
  Q (m st).1 (m st).2.

Lemma wp_run {A} (m : M A) st Q st' r :
  wp m st Q -> m st = (st', r) -> Q st' r.
Proof. unfold wp. intros H E. now rewrite E in H. Qed.

Lemma wp_mono {A} (m : M A) st (Q Q' : state -> outcome A -> Prop) :
  wp m st Q -> (forall st' r, Q st' r -> Q' st' r) -> wp m st Q'.
Proof. unfold wp. auto. Qed.

Lemma wp_ret {A} (a : A) st Q : Q st (Returned a) -> wp (ret a) st Q.
Proof. exact id. Qed.

Lemma wp_raise {A} e st (Q : state -> outcome A -> Prop) :
  Q st (Raised e) -> wp (raise e) st Q.
Proof. exact id. Qed.

Lemma wp_continue {A} st (Q : state -> outcome A -> Prop) :
  Q st Continued -> wp continue_ st Q.
Proof. exact id. Qed.

Lemma wp_bind {A B} (m : M A) (k : A -> M B) st Q :
  wp m st (fun st' r =>
    match r with
    | Returned a => wp (k a) st' Q
    | Raised e => Q st' (Raised e)
    | Continued => Q st' Continued
    | OutOfFuel => Q st' OutOfFuel
    end) ->
  wp (bind m k) st Q.
Proof. unfold wp, bind. destruct (m st) as [st' [a|e| |]]; auto. Qed.

Lemma wp_try_except_Exception {A} (body : M A) handler st Q :
  wp body st (fun st' r =>
    match r with
    | Raised e => if is_Exception e then wp (handler e) st' Q
                  else Q st' (Raised e)
    | _ => Q st' r
    end) ->
  wp (try_except_Exception body handler) st Q.
Proof.
  unfold wp, try_except_Exception.
  destruct (body st) as [st' [a|e| |]]; simpl; auto.
  destruct (is_Exception e); auto.
Qed.

Lemma wp_try_except_KeyboardInterrupt {A} (body handler : M A) st Q :
  wp body st (fun st' r =>
    match r with
    | Raised e => if is_KeyboardInterrupt e then wp handler st' Q
                  else Q st' (Raised e)
    | _ => Q st' r
    end) ->
  wp (try_except_KeyboardInterrupt body handler) st Q.
Proof.
  unfold wp, try_except_KeyboardInterrupt.
  destruct (body st) as [st' [a|e| |]]; simpl; auto.
  destruct (is_KeyboardInterrupt e); auto.
Qed.

Lemma wp_try_finally {A} (body : M A) cleanup st Q :
  wp body st (fun st' r =>
    match r with
    | OutOfFuel => Q st' OutOfFuel
    | _ => wp cleanup st' (fun st'' c =>
             match c with
             | Returned _ => Q st'' r
             | Raised e => Q st'' (Raised e)
             | Continued => Q st'' Continued
             | OutOfFuel => Q st'' OutOfFuel
             end)
    end) ->
  wp (try_finally body cleanup) st Q.
Proof.
  unfold wp, try_finally.
  destruct (body st) as [st' [a|e| |]]; simpl; auto;
    destruct (cleanup st') as [st'' [[]|e'| |]]; simpl; auto.
Qed.

Lemma wp_when c body st Q :
  (c = true -> wp body st Q) ->
  (c = false -> Q st (Returned tt)) ->
  wp (when c body) st Q.
Proof.
  destruct c; intros Hthen Helse; [exact (Hthen eq_refl) | exact (Helse eq_refl)].
Qed.

Lemma wp_iteration body st Q :
  wp body st (fun st' r =>
    match r with
    | Continued => Q st' (Returned tt)
    | _ => Q st' r
    end) ->
  wp (iteration body) st Q.
Proof. unfold wp, iteration. destruct (body st) as [st' [a|e| |]]; auto. Qed.

Lemma wp_foreign {A} (ask : list event -> reply A) ev st Q :
  (forall r, ask (history st) = r -> Q (record (ev r) st) (outcome_of r)) ->
  wp (foreign ask ev) st Q.
Proof. unfold wp, foreign. simpl. auto. Qed.

Lemma wp_local ask ev st Q :
  (forall i, ask (history st) = i -> Q (record (ev i) st) (interrupt_of i)) ->
  wp (local ask ev) st Q.
Proof. unfold wp, local. simpl. auto. Qed.

Lemma wp_processed_urls_init st Q :
  Q (State ∅ (history st)) (Returned tt) -> wp processed_urls_init st Q.
Proof. exact id. Qed.

Lemma wp_processed_urls_contains url st Q :
  Q st (Returned (bool_decide (url ∈ processed_urls st))) ->
  wp (processed_urls_contains url) st Q.
Proof. exact id. Qed.

Lemma wp_processed_urls_add url st Q :
  Q (State ({[url]} ∪ processed_urls st) (history st)) (Returned tt) ->
  wp (processed_urls_add url) st Q.
Proof. exact id. Qed.

Lemma wp_equation {A} (m : M A) st st' r :
  wp m st (fun st1 r1 => st1 = st' /\ r1 = r) -> m st = (st', r).
Proof. unfold wp. destruct (m st) as [st1 r1]. simpl. now intros [-> ->]. Qed.

Lemma new_events_app st p evs :
  new_events st (State p (history st ++ evs)) = evs.
Proof. unfold new_events. simpl. apply drop_app_length. Qed.

Lemma new_events_self st p : new_events st (State p (history st)) = [].
Proof. unfold new_events. simpl. apply drop_all. Qed.

(** *** Symbolic execution of the script *)

Ltac wp_red :=
  cbn beta iota delta
    [outcome_of interrupt_of is_Exception is_KeyboardInterrupt].

Ltac same_reply :=
  repeat match goal with
  | H1 : ?x = Ok ?a, H2 : ?x = Ok ?b |- _ =>
      assert (b = a) by congruence; subst b; clear H2
  end.

Ltac wp_step :=
  lazymatch goal with
  | |- wp (bind _ _) _ _ => apply wp_bind
  | |- wp (ret _) _ _ => apply wp_ret
  | |- wp (raise _) _ _ => apply wp_raise
  | |- wp continue_ _ _ => apply wp_continue
  | |- wp (try_except_Exception _ _) _ _ => apply wp_try_except_Exception
  | |- wp (try_except_KeyboardInterrupt _ _) _ _ =>
      apply wp_try_except_KeyboardInterrupt
  | |- wp (try_finally _ _) _ _ => apply wp_try_finally
  | |- wp (when _ _) _ _ => apply wp_when; intros ?
  | |- wp (iteration _) _ _ => apply wp_iteration
  | |- wp (foreign _ _) _ _ =>
      apply wp_foreign; intros [?|[?| |]] ?; try congruence; same_reply;
      repeat match goal with x : unit |- _ => destruct x end
  | |- wp (local _ _) _ _ => apply wp_local; intros [|] ?; try congruence
  | |- wp (tick _) _ _ => unfold tick
  | |- wp (loop_body _) _ _ => unfold loop_body
  | |- wp (extract_text_from_url _ _) _ _ => unfold extract_text_from_url
  | |- wp (summarize_text _ _ _) _ _ =>
      unfold summarize_text; cbn [default from_option id]
  | |- wp (driver_current_url _) _ _ => unfold driver_current_url
  | |- wp (driver_get _ _) _ _ => unfold driver_get
  | |- wp (driver_find_element _ _ _) _ _ => unfold driver_find_element
  | |- wp (element_text _ _) _ _ => unfold element_text
  | |- wp (chat_completions_create _ _ _) _ _ =>
      unfold chat_completions_create
  | |- wp (driver_quit _) _ _ => unfold driver_quit
  | |- wp (time_sleep _ _) _ _ => unfold time_sleep
  | |- wp (print _ _) _ _ => unfold print
  | |- wp (processed_urls_contains _) _ _ =>
      apply wp_processed_urls_contains
  | |- wp (processed_urls_add _) _ _ => apply wp_processed_urls_add
  | |- wp processed_urls_init _ _ => apply wp_processed_urls_init
  | |- wp (index0 ?l) _ _ => destruct l; cbn [index0]
  end; wp_red.

Tactic Notation "wp_go" "by" tactic(tac) :=
  repeat (wp_step; try (solve [tac])).
Tactic Notation "wp_go" := repeat wp_step.

(** Puts the histories of the states reached into the form
    [history st ++ [ev1; ...; evn]]. *)
Ltac hist :=
  unfold record in *; cbn [history processed_urls] in *;
  rewrite <- ?app_assoc; cbn [app];
  rewrite ?new_events_app, ?new_events_self.

(** Replaces the calls to the world by the replies found on the path. *)
Ltac use_replies :=
  repeat match goal with
  | H : ?call = _ |- context [?call] => rewrite H
  end.

Lemma invalid_guard u :
  valid_address u = false ->
  negb (truthy u) || startswith u "about:" = true.
Proof. unfold valid_address. destruct (truthy u), (startswith u "about:"); auto. Qed.

Lemma valid_guard u :
  valid_address u = true ->
  negb (truthy u) || startswith u "about:" = false.
Proof. unfold valid_address. destruct (truthy u), (startswith u "about:"); auto. Qed.

(** ** Ticks that do nothing *)

Lemma tick_skips w st u :
  w_current_url w (history st) = Ok u ->
  valid_address u = false \/ u ∈ processed_urls st ->
  let i := w_sleep w (history st ++ [EvCurrentUrl (Ok u)]) 5 in
  tick w st =
    (State (processed_urls st)
       (history st ++ [EvCurrentUrl (Ok u); EvSleep 5 i]),
     interrupt_of i).
Proof.
  intros Hurl Hskip i. apply wp_equation.
  destruct (valid_address u) eqn:Hv.
  - destruct Hskip as [?|Hin]; [discriminate|].
    apply valid_guard in Hv.
    wp_go by (hist; first [congruence | (case_bool_decide; simpl in *; congruence)]).
    all: hist; subst i; use_replies; now split.
  - apply invalid_guard in Hv.
    wp_go by congruence.
    all: hist; subst i; use_replies; now split.
Qed.

(** ** What a tick does to the set of processed addresses *)

Lemma guard_valid u :
  negb (truthy u) || startswith u "about:" = false -> valid_address u = true.
Proof. unfold valid_address. destruct (truthy u), (startswith u "about:"); auto. Qed.

Lemma guard_new (u : string) (p : gset string) :
  negb (bool_decide (u ∈ p)) = true -> u ∉ p.
Proof. case_bool_decide; [discriminate | auto]. Qed.

Lemma tick_processed w st :
  wp (tick w) st (fun st' r =>
    exists evs, history st' = history st ++ evs /\
      ((processed_urls st' = processed_urls st /\
        (r = Returned tt \/ exists e, r = Raised e))
       \/ exists u el text c rest i,
            valid_address u = true /\ (u ∉ processed_urls st) /\
            processed_urls st' = {[u]} ∪ processed_urls st /\
            evs = success_events u el text c rest ++ [EvSleep 5 i] /\
            r = interrupt_of i)).
Proof.
  wp_go.
  all: hist; eexists; (split; [reflexivity|]).
  all: first
    [ left; split; [reflexivity|]; first [left; reflexivity | right; eauto]
    | right; do 6 eexists; split; [eapply guard_valid; eassumption|];
      split; [eapply guard_new; eassumption|];
      split; [reflexivity|]; split; reflexivity ].
Qed.

(** ** Runs of the loop *)

(** A property of the pair (state before, state after) that holds for
    every tick holds for every run of the loop. *)
Lemma wp_while_True body (R : state -> state -> Prop) :
  (forall st, R st st) ->
  (forall a b c, R a b -> R b c -> R a c) ->
  (forall st, wp (iteration body) st (fun st' r =>
     R st st' /\
     (r = Returned tt \/ exists e, r = Raised e))) ->
  forall n st, wp (while_True n body) st (fun st' r =>
     R st st' /\
     (r = OutOfFuel \/ exists e, r = Raised e)).
Proof.
  intros Hrefl Htrans Htick n. induction n as [|n IH]; intros st.
  - split; [apply Hrefl | now left].
  - cbn [while_True]. apply wp_bind.
    eapply wp_mono; [apply Htick|].
    intros st1 r1 [HR [-> | [e ->]]].
    + eapply wp_mono; [apply IH|].
      intros st2 r2 [HR2 Hr2]. split; [eapply Htrans; eassumption | exact Hr2].
    + split; [exact HR | right; eauto].
Qed.

(** A tick only appends to the history and only adds to the set. *)
Lemma tick_grows w st :
  wp (tick w) st (fun st' r =>
    ((exists evs, history st' = history st ++ evs) /\
     processed_urls st ⊆ processed_urls st') /\
    (r = Returned tt \/ exists e, r = Raised e)).
Proof.
  eapply wp_mono; [apply tick_processed|].
  intros st' r [evs [Hh [[Hp Hr]|(u & el & text & c & rest & i & _ & _ & Hp & _ & Hr)]]].
  - split; [split; [eauto | now rewrite Hp] | exact Hr].
  - split; [split; [eauto | rewrite Hp; apply union_subseteq_r]|].
    subst r. destruct i; [right; eexists; split; reflexivity | now left].
Qed.

Lemma run_grows w n st :
  wp (while_True n (loop_body w)) st (fun st' r =>
    ((exists evs, history st' = history st ++ evs) /\
     processed_urls st ⊆ processed_urls st') /\
    (r = OutOfFuel \/ exists e, r = Raised e)).
Proof.
  apply (wp_while_True (loop_body w) (fun a b =>
    (exists evs, history b = history a ++ evs) /\
    processed_urls a ⊆ processed_urls b)).
  - intros a. split; [exists []; now rewrite app_nil_r | set_solver].
  - intros a b c [[e1 H1] S1] [[e2 H2] S2]. split.
    + exists (e1 ++ e2). now rewrite H2, H1, app_assoc.
    + set_solver.
  - intros a. apply tick_grows.
Qed.

Lemma skipping_tick_events w st u :
  w_current_url w (history st) = Ok u ->
  valid_address u = false \/ u ∈ processed_urls st ->
  let i := w_sleep w (history st ++ [EvCurrentUrl (Ok u)]) 5 in
  let after := (tick w st).1 in
  tick w st =
    (State (processed_urls st)
       (history st ++ [EvCurrentUrl (Ok u); EvSleep 5 i]),
     interrupt_of i) /\
  none_of is_extraction (new_events st after) = true /\
  none_of is_summarization (new_events st after) = true /\
  processed_urls after = processed_urls st.
Proof.
  intros Hurl Hskip i after.
  pose proof (tick_skips w st u Hurl Hskip) as Heq. cbn zeta in Heq.
  subst after. rewrite Heq. cbn [fst]. rewrite new_events_app.
  repeat split; reflexivity.
Qed.

Lemma invalid_cases u :
  u = "" \/ startswith u "about:" = true -> valid_address u = false.
Proof.
  unfold valid_address. intros [-> | ->]; [reflexivity|].
  now rewrite andb_false_r.
Qed.

(** ** Invalid addresses and processed addresses *)

(** C3. A tick that reads the empty string or an address starting with
    [about:] performs the read and the five second sleep and nothing else:
    no operation of the extraction stage, no call of the summarization
    service, and the set of processed addresses is unchanged. *)
Theorem invalid_address_is_filtered w st u :
  w_current_url w (history st) = Ok u ->
  u = "" \/ startswith u "about:" = true ->
  let after := (tick w st).1 in
  only_waits w st u /\
  none_of is_extraction (new_events st after) = true /\
  none_of is_summarization (new_events st after) = true /\
  processed_urls after = processed_urls st.
Proof.
  intros Hurl Hinv. apply skipping_tick_events; [exact Hurl|].
  left. now apply invalid_cases.
Qed.

Lemma invalid_address_is_filtered_witness :
  let w := browsing [""; "about:blank"] in
  let st := (tick w initial_state).1 in
  only_waits w st "about:blank" /\
  none_of is_extraction (new_events st (tick w st).1) = true /\
  none_of is_summarization (new_events st (tick w st).1) = true /\
  processed_urls (tick w st).1 = processed_urls st.
Proof.
  intros w st.
  apply (invalid_address_is_filtered w st "about:blank");
    [reflexivity | right; reflexivity].
Defined.

(** C1. Once [A] is in the set of processed addresses, it stays there, and
    every later tick that reads [A] only waits: it performs no operation
    of the extraction stage and no call of the summarization service.
    [st'] is any state the loop reaches from [st], [n] ticks later. *)
Theorem processed_address_is_skipped w A st n st' :
  A ∈ processed_urls st ->
  while_True n (loop_body w) st = (st', OutOfFuel) ->
  w_current_url w (history st') = Ok A ->
  let after := (tick w st').1 in
  A ∈ processed_urls st' /\
  only_waits w st' A /\
  none_of is_extraction (new_events st' after) = true /\
  none_of is_summarization (new_events st' after) = true /\
  processed_urls after = processed_urls st'.
Proof.
  intros Hin Hrun Hurl after.
  assert (A ∈ processed_urls st') as Hin'.
  { pose proof (wp_run _ _ _ _ _ (run_grows w n st) Hrun) as [[_ Hsub] _].
    set_solver. }
  split; [exact Hin'|].
  apply skipping_tick_events; [exact Hurl | now right].
Qed.

Lemma processed_address_is_skipped_witness :
  let w := browsing [p1; p2; p1] in
  let st := (tick w initial_state).1 in
  let st' := (while_True 1 (loop_body w) st).1 in
  p1 ∈ processed_urls st' /\
  only_waits w st' p1 /\
  none_of is_extraction (new_events st' (tick w st').1) = true /\
  none_of is_summarization (new_events st' (tick w st').1) = true /\
  processed_urls (tick w st').1 = processed_urls st'.
Proof.
  intros w st st'.
  apply (processed_address_is_skipped w p1 st 1 st').
  - apply (bool_decide_unpack _). vm_compute. exact I.
  - vm_compute. reflexivity.
  - vm_compute. reflexivity.
Defined.

(** ** Properties of every event of a run *)

Lemma each_event_from_split Q p h :
  each_event_from Q p h ->
  forall pre ev post, h = pre ++ ev :: post -> Q (p ++ pre) ev.
Proof.
  revert p. induction h as [|x h IH]; intros p Hall pre ev post Heq.
  - now destruct pre.
  - destruct Hall as [Hx Hrest]. destruct pre as [|y pre]; simplify_eq/=.
    + now rewrite app_nil_r.
    + replace (p ++ y :: pre) with ((p ++ [y]) ++ pre)
        by now rewrite <- app_assoc.
      eapply IH; [exact Hrest | reflexivity].
Qed.

Lemma each_event_of_from Q h : each_event_from Q [] h -> each_event Q h.
Proof. intros H pre ev post Heq. exact (each_event_from_split Q [] h H pre ev post Heq). Qed.

Lemma each_event_nil Q : each_event Q [].
Proof. intros pre ev post Heq. now destruct pre. Qed.

Lemma each_event_app Q h1 h2 :
  local_property Q ->
  each_event Q h1 -> each_event Q h2 -> each_event Q (h1 ++ h2).
Proof.
  intros Hloc H1 H2 pre ev post Heq.
  apply app_eq_inv in Heq as [[k [-> Hk]] | [k [-> Hk]]].
  - destruct k as [|x k]; simplify_eq/=.
    + rewrite <- (app_nil_r pre). apply Hloc. now eapply (H2 []).
    + now eapply H1.
  - apply Hloc. eapply H2. exact Hk.
Qed.

Lemma each_event_snoc Q h ev :
  local_property Q ->
  each_event Q h -> (forall pre, Q pre ev) -> each_event Q (h ++ [ev]).
Proof.
  intros Hloc Hh Hev. apply each_event_app; [exact Hloc | exact Hh |].
  intros pre ev' post Heq.
  destruct pre as [|x pre]; simplify_eq/=; [apply Hev|].
  now destruct pre.
Qed.

(** ** Invariants of the whole program *)

Lemma while_True_invariant w (I : state -> Prop) :
  (forall st, I st -> wp (tick w) st (fun st' _ => I st')) ->
  forall n st, I st ->
    wp (while_True n (loop_body w)) st (fun st' r =>
      I st' /\
      (r = OutOfFuel \/ exists e, r = Raised e)).
Proof.
  intros Htick n st Hst.
  pose proof (wp_while_True (loop_body w) (fun a b => I a -> I b)) as Hrun.
  eapply wp_mono.
  - apply Hrun; [auto | auto |].
    intros a. unfold wp. split.
    + intros Ha. exact (Htick a Ha).
    + pose proof (tick_grows w a) as Hg. unfold wp in Hg. apply Hg.
  - intros st' r [HI Hr]. auto.
Qed.

(** The same for [main] and for the entry point: an invariant of the
    ticks that holds of the empty set and survives a [print] and the
    [driver.quit()] holds when the program stops, however it stops. *)
Lemma main_invariant w (I : state -> Prop) :
  (forall st, I st -> I (State ∅ (history st))) ->
  (forall st line i, I st -> I (record (EvPrint line i) st)) ->
  (forall st, I st -> wp (tick w) st (fun st' _ => I st')) ->
  forall fuel st, I st ->
    wp (main w fuel) st (fun st' r =>
      I st' /\
      (r = OutOfFuel \/ exists e, r = Raised e)).
Proof.
  intros Hinit Hprint Htick fuel st Hst. unfold main.
  wp_go.
  all: try (apply while_True_invariant; auto; fail).
  all: split; [auto | right; eauto].
Qed.

Lemma entry_point_invariant w (I : state -> Prop) :
  (forall st, I st -> I (State ∅ (history st))) ->
  (forall st line i, I st -> I (record (EvPrint line i) st)) ->
  (forall st r, I st -> I (record (EvQuit r) st)) ->
  (forall st, I st -> wp (tick w) st (fun st' _ => I st')) ->
  forall fuel st, I st -> wp (entry_point w fuel) st (fun st' _ => I st').
Proof.
  intros Hinit Hprint Hquit Htick fuel st Hst. unfold entry_point.
  apply wp_try_finally, wp_try_except_KeyboardInterrupt.
  eapply wp_mono; [apply (main_invariant w I); assumption|].
  intros st1 r1 [H1 [-> | [e ->]]]; [exact H1|].
  destruct e as [msg| |]; wp_red; wp_go; auto.
Qed.

(** A property of every event that the ticks establish for the events
    they add holds of the whole history of the program. *)
Lemma history_invariant w (Q : list event -> event -> Prop) :
  local_property Q ->
  (forall pre line i, Q pre (EvPrint line i)) ->
  (forall pre r, Q pre (EvQuit r)) ->
  (forall st, wp (tick w) st (fun st' _ =>
     exists evs, history st' = history st ++ evs /\
                 each_event_from Q [] evs)) ->
  forall fuel,
    each_event Q (history (entry_point w fuel initial_state).1).
Proof.
  intros Hloc Hprint Hquit Htick fuel.
  change (wp (entry_point w fuel) initial_state
            (fun st' _ => each_event Q (history st'))).
  apply (entry_point_invariant w (fun st => each_event Q (history st))).
  - auto.
  - intros st line i Hst. cbn. apply each_event_snoc; auto.
  - intros st r Hst. cbn. apply each_event_snoc; auto.
  - intros st Hst. eapply wp_mono; [apply Htick|].
    intros st' _ [evs [-> Hevs]].
    apply each_event_app; [exact Hloc | exact Hst |].
    now apply each_event_of_from.
  - apply each_event_nil.
Qed.

(** ** The summarization request *)

Lemma fixed_request_local : local_property fixed_request.
Proof.
  intros h pre ev H. destruct ev; cbn in *; try exact I.
  destruct H as (el & text & Hlast & Hreq).
  exists el, text. split; [|exact Hreq].
  rewrite last_app, Hlast. reflexivity.
Qed.

Lemma tick_requests w st :
  wp (tick w) st (fun st' _ =>
    exists evs, history st' = history st ++ evs /\
                each_event_from fixed_request [] evs).
Proof.
  wp_go.
  all: hist; eexists; (split; [reflexivity|]).
  all: cbn [each_event_from app fixed_request]; repeat split.
  all: do 2 eexists; split; reflexivity.
Qed.

(** C10. [summarize_text], called as [main] calls it, sends one request:
    model ["gpt-4"] and a single message of role ["user"] whose content is
    ["Summarize this text:\n"] followed by the text.  In the history of the
    whole program every call of the service comes right after the read of
    the page text and carries the request built from that text. *)
Theorem summarization_request_is_fixed :
  (forall w text st,
     new_events st (summarize_text w text None st).1 =
       [EvCreate "gpt-4"
          [Message "user" ("Summarize this text:" +:+ nl +:+ text)]
          (w_create w (history st) "gpt-4"
             [Message "user" ("Summarize this text:" +:+ nl +:+ text)])]) /\
  (forall w fuel,
     each_event fixed_request (history (entry_point w fuel initial_state).1)).
Proof.
  split.
  - intros w text st.
    change (wp (summarize_text w text None) st (fun st' _ =>
      new_events st st' =
        [EvCreate "gpt-4"
           [Message "user" ("Summarize this text:" +:+ nl +:+ text)]
           (w_create w (history st) "gpt-4"
              [Message "user" ("Summarize this text:" +:+ nl +:+ text)])])).
    wp_go; hist; use_replies; reflexivity.
  - intros w fuel. apply history_invariant.
    + apply fixed_request_local.
    + intros; exact I.
    + intros; exact I.
    + apply tick_requests.
Qed.

(** ** Every processed address was summarized *)

Lemma summarized_in_app u h evs :
  summarized_in u h -> summarized_in u (h ++ evs).
Proof.
  intros (pre & el & text & c & rest & post & ->).
  exists pre, el, text, c, rest, (post ++ evs).
  now rewrite <- !app_assoc.
Qed.

Lemma tick_all_summarized w st :
  all_summarized st -> wp (tick w) st (fun st' _ => all_summarized st').
Proof.
  intros Hst. eapply wp_mono; [apply tick_processed|].
  intros st' r [evs [Hh [[Hp _]|(u & el & text & c & rest & i & _ & _ & Hp & Hevs & _)]]];
    intros v Hv; rewrite Hh.
  - apply summarized_in_app, Hst. now rewrite <- Hp.
  - rewrite Hp in Hv. apply elem_of_union in Hv as [Hv|Hv].
    + apply elem_of_singleton in Hv as ->.
      exists (history st), el, text, c, rest, [EvSleep 5 i]. now rewrite Hevs.
    + now apply summarized_in_app, Hst.
Qed.

(** C5. A tick changes the set of processed addresses in one way only: it
    adds the address [u] it read, after it navigated to [u], read the
    text, received a summary and printed it, and with nothing between the
    completed print of the summary and the addition.  Hence, whenever and
    however the program stops, every processed address has in the history
    its successful summarization followed by the printed summary. *)
Theorem processed_only_after_printed_summary :
  (forall w st,
     let st' := (tick w st).1 in
     processed_urls st' = processed_urls st \/
     exists u el text c rest i,
       (u ∉ processed_urls st) /\
       processed_urls st' = {[u]} ∪ processed_urls st /\
       new_events st st' = success_events u el text c rest ++ [EvSleep 5 i]) /\
  (forall w fuel u,
     u ∈ processed_urls (entry_point w fuel initial_state).1 ->
     summarized_in u (history (entry_point w fuel initial_state).1)).
Proof.
  split.
  - intros w st st'. subst st'.
    pose proof (tick_processed w st) as H. unfold wp in H.
    destruct H as [evs [Hh [[Hp _]|(u & el & text & c & rest & i & _ & Hnew & Hp & Hevs & _)]]].
    + now left.
    + right. exists u, el, text, c, rest, i.
      split; [exact Hnew|]. split; [exact Hp|].
      unfold new_events. rewrite Hh, drop_app_length. exact Hevs.
  - intros w fuel.
    change (wp (entry_point w fuel) initial_state
              (fun st' _ => all_summarized st')).
    apply entry_point_invariant.
    + intros st _ u Hu. cbn in Hu. set_solver.
    + intros st line i Hst u Hu. cbn. apply summarized_in_app, Hst, Hu.
    + intros st r Hst u Hu. cbn. apply summarized_in_app, Hst, Hu.
    + apply tick_all_summarized.
    + intros u Hu. cbn in Hu. set_solver.
Qed.

Lemma processed_only_after_printed_summary_witness :
  summarized_in p1 (history (entry_point (browsing [p1]) 3 initial_state).1).
Proof.
  apply (proj2 processed_only_after_printed_summary (browsing [p1]) 3 p1).
  apply (bool_decide_unpack _). vm_compute. exact I.
Defined.

(** ** Failures stay inside the loop *)

Lemma each_with_rest_split Q evs :
  each_with_rest Q evs ->
  forall pre ev post, evs = pre ++ ev :: post -> Q ev post.
Proof.
  induction evs as [|x evs IH]; intros Hall pre ev post Heq.
  - now destruct pre.
  - destruct Hall as [Hx Hrest]. destruct pre as [|y pre]; simplify_eq/=.
    + exact Hx.
    + eapply IH; [exact Hrest | reflexivity].
Qed.

Lemma failures_logged_intro evs :
  each_with_rest (fun ev post => forall e,
    failure_of ev = Some e ->
    post = [EvPrint (error_log (address_read evs) ev e) (Ok tt);
            EvSleep 5 false]) evs ->
  failures_logged evs.
Proof.
  intros H pre ev post e Heq.
  exact (each_with_rest_split _ _ H pre ev post Heq e).
Qed.

Lemma tick_handles_failures w st :
  wp (tick w) st (fun st' r =>
    forallb undisturbed (new_events st st') = true ->
    r = Returned tt /\
    last (new_events st st') = Some (EvSleep 5 false) /\
    failures_logged (new_events st st')).
Proof.
  wp_go.
  all: hist; cbn; intros Hquiet; try discriminate Hquiet.
  all: split; [reflexivity|]; split; [reflexivity|].
  all: apply failures_logged_intro; cbn; repeat split.
  all: intros e He; now simplify_eq.
Qed.

Lemma failures_caught_intro evs :
  each_with_rest (fun ev post => forall e,
    failure_of ev = Some e ->
    is_Exception e = true ->
    exists p tail,
      post = EvPrint (error_log (address_read evs) ev e) p :: tail /\
      (p = Ok tt -> exists i, tail = [EvSleep 5 i])) evs ->
  failures_caught evs.
Proof.
  intros H pre ev post e Heq.
  exact (each_with_rest_split _ _ H pre ev post Heq e).
Qed.

Lemma tick_catches_failures w st :
  wp (tick w) st (fun st' _ => failures_caught (new_events st st')).
Proof.
  wp_go.
  all: hist; apply failures_caught_intro.
  all: cbn [each_with_rest failure_of address_read error_log].
  all: repeat split; intros e He Hexc; simplify_eq; try discriminate Hexc.
  all: do 2 eexists; (split; [reflexivity|]).
  all: intros Hp; first [discriminate Hp | eauto].
Qed.

Lemma tick_ended_by w st :
  wp (tick w) st (fun st' r =>
    r = Returned tt \/ exists e, r = Raised e /\ ended_by (history st') e).
Proof.
  wp_go.
  all: hist; first [left; reflexivity | right; eexists; (split; [reflexivity|])].
  all: first
    [ left; reflexivity
    | right; eexists; split; [rewrite last_app; reflexivity | reflexivity] ].
Qed.

(** What ends a tick with an exception ends the loop with it. *)
Lemma while_True_raises w (P : state -> exn -> Prop) :
  (forall st, wp (tick w) st (fun st' r =>
     r = Returned tt \/ exists e, r = Raised e /\ P st' e)) ->
  forall n st, wp (while_True n (loop_body w)) st (fun st' r =>
     r = OutOfFuel \/ exists e, r = Raised e /\ P st' e).
Proof.
  intros Htick n. induction n as [|n IH]; intros st.
  - now left.
  - cbn [while_True]. apply wp_bind.
    eapply wp_mono; [apply Htick|].
    intros st1 r1 [-> | [e [-> He]]]; [apply IH | right; eauto].
Qed.

(** C6, as stated, fails: with the session lost and the terminal closed
    the handler of the failed read prints its error line, that print
    raises [OSError], which no handler catches, and the loop ends with an
    [Exception] although nothing interrupted the process. *)
Lemma error_line_print_ends_the_loop :
  let run := main closed_terminal 3 initial_state in
  run.2 = Raised (PyException "[Errno 32] Broken pipe") /\
  is_Exception (PyException "[Errno 32] Broken pipe") = true /\
  new_events (State ∅ greeting) run.1 =
    [EvCurrentUrl (Fail (PyException "no such window"));
     EvPrint "Error retrieving current URL: no such window"
       (Fail (PyException "[Errno 32] Broken pipe"))].
Proof. vm_compute. repeat split; reflexivity. Qed.

(** C6, amended. In every tick, an operation of the address read, of the
    extraction or of the summarization that fails with an [Exception] is
    caught: it is followed by the print of its error line and, when that
    print completes, by the five second sleep that ends the tick.  A tick
    in which no operation is interrupted and every print completes ends
    normally, with that sleep.  The loop is left only by an exception: an
    interruption of the process (an exception that is not an [Exception]),
    or an exception raised by one of the prints of the loop that no [try]
    encloses, the announcement of an address or an error line. *)
Theorem failures_are_contained w :
  (forall st, failures_caught (new_events st (tick w st).1)) /\
  (forall st,
     let evs := new_events st (tick w st).1 in
     forallb undisturbed evs = true ->
     (tick w st).2 = Returned tt /\
     last evs = Some (EvSleep 5 false) /\
     failures_logged evs) /\
  (forall n st,
     let run := while_True n (loop_body w) st in
     run.2 = OutOfFuel \/
     exists e, run.2 = Raised e /\ ended_by (history run.1) e).
Proof.
  split; [|split].
  - intros st. exact (tick_catches_failures w st).
  - intros st. exact (tick_handles_failures w st).
  - intros n st. exact (while_True_raises w _ (tick_ended_by w) n st).
Qed.

Lemma failures_are_contained_witness :
  let st := initial_state in
  let evs := new_events st (tick lost_session st).1 in
  (tick lost_session st).2 = Returned tt /\
  last evs = Some (EvSleep 5 false) /\
  failures_logged evs.
Proof.
  intros st evs.
  apply (proj1 (proj2 (failures_are_contained lost_session)) st).
  vm_compute. reflexivity.
Defined.

(** ** Navigation *)

Ltac ends_with :=
  lazymatch goal with
  | |- exists k, ?l = k ++ ?seg =>
      let n := eval cbv in (length l - length seg) in
      exists (take n l); reflexivity
  end.

Lemma reactive_navigation_local : local_property reactive_navigation.
Proof.
  intros h pre ev H. destruct ev; cbn in *; try exact I.
  - destruct H as [pre' ->]. exists (h ++ pre'). now rewrite <- app_assoc.
  - destruct H as (url & pre' & ->). exists url, (h ++ pre').
    now rewrite <- app_assoc.
Qed.

Lemma tick_navigation w st :
  wp (tick w) st (fun st' _ =>
    exists evs, history st' = history st ++ evs /\
                each_event_from reactive_navigation [] evs).
Proof.
  wp_go.
  all: hist; eexists; (split; [reflexivity|]).
  all: cbn [each_event_from app reactive_navigation]; repeat split.
  all: first [ends_with | eexists; ends_with].
Qed.

(** C7, as stated, fails: the extraction of a page the user opened sends a
    navigation command to the browser. *)
Lemma extraction_sends_a_navigation :
  let evs := new_events initial_state (tick (browsing [p1]) initial_state).1 in
  evs !! 2 = Some (EvGet p1 (Ok tt)) /\
  none_of is_navigation evs = false.
Proof. vm_compute. split; reflexivity. Qed.

(** C7, amended. The program navigates only in reaction to the user: every
    [driver.get(url)] of the history goes to the address the browser had
    just reported as its current one, and every read of the page text is
    made on the body found after such a navigation and the two second
    sleep.  The program never sends the browser to another address. *)
Theorem navigation_only_to_current_address w fuel :
  each_event reactive_navigation
    (history (entry_point w fuel initial_state).1).
Proof.
  apply history_invariant.
  - apply reactive_navigation_local.
  - intros; exact I.
  - intros; exact I.
  - apply tick_navigation.
Qed.

(** ** Shutdown *)

Lemma count_app p h1 h2 : count p (h1 ++ h2) = count p h1 + count p h2.
Proof. unfold count. now rewrite List.filter_app, length_app. Qed.








(** ** Failures do not mark an address as processed *)


Lemma tick_runs_pipeline w st A :
  valid_address A = true ->
  A ∉ processed_urls st ->
  w_current_url w (history st) = Ok A ->
  wp (tick w) st (fun st' _ => full_pipeline A (new_events st st')).
Proof.
  intros Hv Hnew Hurl. apply valid_guard in Hv.
  wp_go by (first [congruence | (case_bool_decide; simpl in *; congruence)]).
  all: hist; do 2 eexists; (split; [reflexivity|]).
  all: intros Hi; try discriminate Hi.
  all: do 2 eexists; (split; [reflexivity|]).
  all: intros pre el text post Heq.
  all: refine (each_with_rest_split
         (fun ev post => forall el text, ev = EvText el (Ok text) ->
            exists r_c post', post = EvCreate "gpt-4"
              [Message "user" ("Summarize this text:" +:+ nl +:+ text)]
              r_c :: post')
         _ _ pre _ post Heq el text eq_refl).
  all: cbn; repeat split; intros el' text' E; try discriminate E.
  all: simplify_eq; eauto.
Qed.






(** ** Addresses are compared as strings *)

Lemma tick_clean_success w st u :
  valid_address u = true ->
  u ∉ processed_urls st ->
  w_current_url w (history st) = Ok u ->
  wp (tick w) st (fun st' _ =>
    exists evs, history st' = history st ++ evs /\
      (forallb clean evs = true ->
       exists el text c rest,
         evs = success_events u el text c rest ++ [EvSleep 5 false] /\
         processed_urls st' = {[u]} ∪ processed_urls st)).
Proof.
  intros Hv Hnew Hurl. apply valid_guard in Hv.
  wp_go by (first [congruence | (case_bool_decide; simpl in *; congruence)]).
  all: hist; eexists; (split; [reflexivity|]).
  all: cbn; intros Hclean; try discriminate Hclean.
  do 4 eexists. split; reflexivity.
Qed.

(** C9. Membership in the set of processed addresses is equality of
    strings: with [A] alone in the set, a tick that reads a valid address
    [B] only waits when [B] is [A], and runs the whole pipeline for [B]
    when [B] differs from [A] in any way.  Two different valid addresses
    read on two ticks in a row, neither processed before, are therefore
    both summarized when every operation succeeds: two calls of the
    service, and both addresses in the set. *)
Theorem addresses_compared_exactly :
  (forall w h A B,
     valid_address B = true ->
     w_current_url w h = Ok B ->
     let st := State {[A]} h in
     (B = A -> only_waits w st B) /\
     (B <> A -> full_pipeline B (new_events st (tick w st).1))) /\
  (forall w st A B,
     A <> B ->
     valid_address A = true -> valid_address B = true ->
     A ∉ processed_urls st -> B ∉ processed_urls st ->
     let st1 := (tick w st).1 in
     let st2 := (tick w st1).1 in
     w_current_url w (history st) = Ok A ->
     w_current_url w (history st1) = Ok B ->
     forallb clean (new_events st st2) = true ->
     processed_urls st2 = {[B]} ∪ ({[A]} ∪ processed_urls st) /\
     count is_summarization (new_events st st2) = 2 /\
     exists elA textA cA restA elB textB cB restB,
       new_events st st2 =
         success_events A elA textA cA restA ++ [EvSleep 5 false] ++
         success_events B elB textB cB restB ++ [EvSleep 5 false]).
Proof.
  split.
  - intros w h A B Hv Hurl st. split.
    + intros ->. apply tick_skips; [exact Hurl|]. right. cbn. set_solver.
    + intros Hne. apply tick_runs_pipeline; [exact Hv | | exact Hurl].
      cbn. set_solver.
  - intros w st A B Hne HvA HvB HA HB st1 st2 HuA HuB Hclean.
    pose proof (tick_clean_success w st A HvA HA HuA) as H1.
    unfold wp in H1. fold st1 in H1. destruct H1 as [evs1 [Hh1 K1]].
    assert (new_events st st2 = evs1 ++ new_events st1 st2) as Hsplit.
    { pose proof (tick_processed w st1) as Hp. unfold wp in Hp. fold st2 in Hp.
      destruct Hp as [evs2 [Hh2 _]].
      unfold new_events.
      now rewrite Hh2, drop_app_length, Hh1, <- app_assoc, drop_app_length. }
    rewrite Hsplit, forallb_app in Hclean.
    apply andb_prop in Hclean as [Hc1 Hc2].
    destruct (K1 Hc1) as (elA & textA & cA & restA & Hevs1 & Hp1).
    assert (B ∉ processed_urls st1) as HB1.
    { rewrite Hp1. intros [Hin|Hin]%elem_of_union; [|contradiction].
      apply elem_of_singleton in Hin. congruence. }
    pose proof (tick_clean_success w st1 B HvB HB1 HuB) as H2.
    unfold wp in H2. fold st2 in H2. destruct H2 as [evs2 [Hh2 K2]].
    assert (new_events st1 st2 = evs2) as Hn2.
    { unfold new_events. now rewrite Hh2, drop_app_length. }
    rewrite Hn2 in *.
    destruct (K2 Hc2) as (elB & textB & cB & restB & Hevs2 & Hp2).
    split; [now rewrite Hp2, Hp1|].
    rewrite Hsplit, Hevs1, Hevs2. split; [reflexivity|].
    exists elA, textA, cA, restA, elB, textB, cB, restB.
    now rewrite <- !app_assoc.
Qed.

Lemma addresses_compared_exactly_witness :
  let A := "https://x.test/p" in
  let B := "https://x.test/p/" in
  let w := browsing [A; B] in
  let st2 := (tick w (tick w initial_state).1).1 in
  processed_urls st2 = {[B]} ∪ ({[A]} ∪ processed_urls initial_state) /\
  count is_summarization (new_events initial_state st2) = 2 /\
  exists elA textA cA restA elB textB cB restB,
    new_events initial_state st2 =
      success_events A elA textA cA restA ++ [EvSleep 5 false] ++
      success_events B elB textB cB restB ++ [EvSleep 5 false].
Proof.
  intros A B w st2.
  apply (proj2 addresses_compared_exactly w initial_state A B).
  - discriminate.
  - vm_compute. reflexivity.
  - vm_compute. reflexivity.
  - apply not_elem_of_empty.
  - apply not_elem_of_empty.
  - vm_compute. reflexivity.
  - vm_compute. reflexivity.
  - vm_compute. reflexivity.
Defined.

(** ** The scenario of the five reads *)

Lemma main_enters_loop w fuel st :
  always_succeeds w ->
  main w fuel st =
    while_True fuel (loop_body w) (State ∅ (history st ++ greeting)).
Proof.
  intros (_ & _ & _ & _ & _ & Hprint).
  unfold main, bind, processed_urls_init, print, foreign, record.
  cbn [history processed_urls]. rewrite !Hprint. cbn [outcome_of].
  now rewrite <- app_assoc.
Qed.

Lemma while_True_next w n st st' :
  tick w st = (st', Returned tt) ->
  while_True (S n) (loop_body w) st = while_True n (loop_body w) st'.
Proof.
  intros Htick. cbn [while_True]. unfold bind.
  change (iteration (loop_body w) st) with (tick w st). now rewrite Htick.
Qed.

Lemma tick_skips_quietly w st u :
  always_succeeds w ->
  w_current_url w (history st) = Ok u ->
  valid_address u = false \/ u ∈ processed_urls st ->
  tick w st =
    (State (processed_urls st)
       (history st ++ [EvCurrentUrl (Ok u); EvSleep 5 false]),
     Returned tt).
Proof.
  intros (_ & _ & _ & _ & Hsleep & _) Hurl Hskip.
  pose proof (tick_skips w st u Hurl Hskip) as Heq. cbn zeta in Heq.
  now rewrite Hsleep in Heq.
Qed.

Lemma tick_succeeds w st u :
  always_succeeds w ->
  valid_address u = true ->
  u ∉ processed_urls st ->
  w_current_url w (history st) = Ok u ->
  exists el text c rest,
    tick w st =
      (State ({[u]} ∪ processed_urls st)
         (history st ++ success_events u el text c rest ++ [EvSleep 5 false]),
       Returned tt).
Proof.
  intros (Hget & Hfind & Htext & Hcreate & Hsleep & Hprint) Hv Hnew Hurl.
  apply valid_guard in Hv.
  assert (wp (tick w) st (fun st' r =>
    exists el text c rest,
      st' = State ({[u]} ∪ processed_urls st)
              (history st ++ success_events u el text c rest
                 ++ [EvSleep 5 false]) /\
      r = Returned tt)) as H.
  { wp_go by (cbv beta in *; first
      [ congruence
      | (case_bool_decide; simpl in *; congruence)
      | match goal with
        | H : w_get _ _ _ = Fail _ |- _ => rewrite Hget in H; discriminate H
        | H : w_find_element _ ?h ?b ?v = Fail _ |- _ =>
            destruct (Hfind h b v); congruence
        | H : w_text _ ?h ?el = Fail _ |- _ =>
            destruct (Htext h el); congruence
        | H : w_create _ ?h ?m ?ms = Fail _ |- _ =>
            destruct (Hcreate h m ms) as (? & ? & ?); congruence
        | H : w_create _ ?h ?m ?ms = Ok [] |- _ =>
            destruct (Hcreate h m ms) as (? & ? & ?); congruence
        | H : w_sleep _ _ _ = true |- _ => rewrite Hsleep in H; discriminate H
        | H : w_print _ _ _ = Fail _ |- _ => rewrite Hprint in H; discriminate H
        end ]).
    hist. do 4 eexists. split; reflexivity. }
  unfold wp in H. destruct H as (el & text & c & rest & H1 & H2).
  exists el, text, c, rest. destruct (tick w st) as [st' r].
  cbn [fst snd] in *. now subst.
Qed.

(** C4. Let the browser report, on the first five reads, the empty
    string, [about:blank], [p1], [p1] again and [p2], and let extraction
    and summarization succeed whenever they are invoked.  After five ticks
    the loop is still running, the service was called exactly twice, the
    first time while [p1] was processed and the second time while [p2]
    was; the second read of [p1] only waited. *)
Theorem scenario_summarizes_p1_then_p2 w :
  observes_in_sequence w scenario ->
  always_succeeds w ->
  let run := main w 5 initial_state in
  run.2 = OutOfFuel /\
  count is_summarization (history run.1) = 2 /\
  processed_urls run.1 = {[p2]} ∪ ({[p1]} ∪ ∅) /\
  exists el1 t1 c1 r1 el2 t2 c2 r2,
    history run.1 =
      greeting ++
      [EvCurrentUrl (Ok ""); EvSleep 5 false;
       EvCurrentUrl (Ok "about:blank"); EvSleep 5 false] ++
      success_events p1 el1 t1 c1 r1 ++
      [EvSleep 5 false; EvCurrentUrl (Ok p1); EvSleep 5 false] ++
      success_events p2 el2 t2 c2 r2 ++
      [EvSleep 5 false].
Proof.
  intros Hseq Hok run. subst run.
  assert (p2 ∉ ({[p1]} ∪ ∅ : gset string)) as Hp2.
  { intros [Hin|Hin]%elem_of_union; [|now apply not_elem_of_empty in Hin].
    apply elem_of_singleton in Hin. discriminate Hin. }
  assert (p1 ∈ ({[p1]} ∪ ∅ : gset string)) as Hp1
    by (apply elem_of_union_l; now apply elem_of_singleton).
  rewrite main_enters_loop by exact Hok.
  set (s0 := State ∅ (history initial_state ++ greeting)).
  pose proof (tick_skips_quietly w s0 "" Hok (Hseq (history s0) "" eq_refl)
                (or_introl eq_refl)) as T1.
  rewrite (while_True_next _ _ _ _ T1). clear T1.
  set (s1 := State _ _).
  pose proof (tick_skips_quietly w s1 "about:blank" Hok
                (Hseq (history s1) "about:blank" eq_refl)
                (or_introl eq_refl)) as T2.
  rewrite (while_True_next _ _ _ _ T2). clear T2.
  set (s2 := State _ _).
  destruct (tick_succeeds w s2 p1 Hok eq_refl (not_elem_of_empty p1)
              (Hseq (history s2) p1 eq_refl)) as (el1 & t1 & c1 & r1 & T3).
  rewrite (while_True_next _ _ _ _ T3). clear T3.
  set (s3 := State _ _).
  pose proof (tick_skips_quietly w s3 p1 Hok (Hseq (history s3) p1 eq_refl)
                (or_intror Hp1)) as T4.
  rewrite (while_True_next _ _ _ _ T4). clear T4.
  set (s4 := State _ _).
  destruct (tick_succeeds w s4 p2 Hok eq_refl Hp2
              (Hseq (history s4) p2 eq_refl)) as (el2 & t2 & c2 & r2 & T5).
  rewrite (while_True_next _ _ _ _ T5). clear T5.
  subst s0 s1 s2 s3 s4. cbn [while_True fst snd history processed_urls].
  split; [reflexivity|].
  rewrite <- !app_assoc. cbn [initial_state history app].
  split; [reflexivity|]. split; [reflexivity|].
  exists el1, t1, c1, r1, el2, t2, c2, r2. reflexivity.
Qed.

Lemma browsing_in_sequence urls : observes_in_sequence (browsing urls) urls.
Proof. intros h u E. cbn. now rewrite E. Qed.

Lemma browsing_always_succeeds urls : always_succeeds (browsing urls).
Proof. repeat split; cbn; eauto. Qed.

Lemma scenario_summarizes_p1_then_p2_witness :
  let run := main (browsing scenario) 5 initial_state in
  run.2 = OutOfFuel /\
  count is_summarization (history run.1) = 2 /\
  processed_urls run.1 = {[p2]} ∪ ({[p1]} ∪ ∅) /\
  exists el1 t1 c1 r1 el2 t2 c2 r2,
    history run.1 =
      greeting ++
      [EvCurrentUrl (Ok ""); EvSleep 5 false;
       EvCurrentUrl (Ok "about:blank"); EvSleep 5 false] ++
      success_events p1 el1 t1 c1 r1 ++
      [EvSleep 5 false; EvCurrentUrl (Ok p1); EvSleep 5 false] ++
      success_events p2 el2 t2 c2 r2 ++
      [EvSleep 5 false].
Proof.
  apply (scenario_summarizes_p1_then_p2 (browsing scenario)).
  - apply browsing_in_sequence.
  - apply browsing_always_succeeds.
Defined.

(** * Further properties of the loop *)

(** ** What one tick may do *)

Lemma tick_counts w st :
  wp (tick w) st (fun st' r =>
    exists evs, history st' = history st ++ evs /\
      (exists p rest, evs = EvCurrentUrl p :: rest /\
                      none_of is_poll rest = true) /\
      count is_poll evs = 1 /\
      count is_navigation evs <= 1 /\
      count is_summarization evs <= count is_navigation evs /\
      count is_wait evs <= 1 /\
      match r with
      | Returned _ =>
          count is_completed_wait evs = 1 /\
          last evs = Some (EvSleep 5 false)
      | Raised _ => count is_completed_wait evs = 0
      | _ => False
      end).
Proof.
  wp_go.
  all: hist; eexists; (split; [reflexivity|]).
  all: split; [do 2 eexists; split; reflexivity|].
  all: cbn; repeat split; lia.
Qed.

Lemma tick_summarizes_extracted_page w st :
  wp (tick w) st (fun st' _ =>
    exists evs, history st' = history st ++ evs /\
                each_event_from summarizes_extracted_page [] evs).
Proof.
  wp_go.
  all: hist; eexists; (split; [reflexivity|]).
  all: cbn [each_event_from app]; repeat split.
  all: intros Hs; try discriminate Hs.
  all: do 3 eexists; reflexivity.
Qed.

(** X1. A tick reads the current address exactly once, as its first
    operation; it navigates at most once, calls the summarization service
    at most once and only after a navigation: what the tick did before the
    call is exactly the read of an address, its announcement and the
    navigation to that address with the rest of the extraction, all
    completed.  It sleeps five seconds at most once, and a tick that ends
    normally ends with a completed five second sleep. *)
Theorem tick_budget w st :
  let run := tick w st in
  let evs := new_events st run.1 in
  (exists p rest, evs = EvCurrentUrl p :: rest /\
                  none_of is_poll rest = true) /\
  count is_navigation evs <= 1 /\
  count is_summarization evs <= count is_navigation evs /\
  (forall pre ev post,
     evs = pre ++ ev :: post -> is_summarization ev = true ->
     exists url el text,
       pre = [EvCurrentUrl (Ok url);
              EvPrint ("Processing new URL: " +:+ url) (Ok tt)] ++
             extraction_events url el text) /\
  count is_wait evs <= 1 /\
  (run.2 = Returned tt -> last evs = Some (EvSleep 5 false)).
Proof.
  intros run evs. subst run evs.
  pose proof (tick_counts w st) as H. unfold wp in H.
  destruct H as (evs & Hh & Hfirst & _ & Hnav & Hsum & Hwait & Hr).
  pose proof (tick_summarizes_extracted_page w st) as K. unfold wp in K.
  destruct K as (evs' & Hh' & Hafter).
  assert (evs' = evs) as -> by (rewrite Hh in Hh'; now apply app_inv_head in Hh').
  unfold new_events. rewrite Hh, drop_app_length.
  repeat split; try assumption.
  - intros pre ev post Heq.
    exact (each_event_of_from _ _ Hafter pre ev post Heq).
  - intros Hret. rewrite Hret in Hr. apply Hr.
Qed.

Lemma tick_budget_witness :
  let run := tick (browsing [p1]) initial_state in
  last (new_events initial_state run.1) = Some (EvSleep 5 false).
Proof.
  intros run.
  apply (proj2 (proj2 (proj2 (proj2 (proj2
           (tick_budget (browsing [p1]) initial_state)))))).
  vm_compute. reflexivity.
Defined.

(** ** Pacing of the whole run *)

(** A rule for properties that hold between two ticks ([I]) and, in a
    weaker form, once an exception has ended a tick ([J]). *)
Lemma while_True_outcome w (I J : state -> Prop) :
  (forall st, I st ->
     wp (tick w) st (fun st' r =>
       match r with
       | Returned _ => I st'
       | Raised _ => J st'
       | _ => False
       end)) ->
  forall n st, I st ->
    wp (while_True n (loop_body w)) st (fun st' r =>
      match r with
      | OutOfFuel => I st'
      | Raised _ => J st'
      | _ => False
      end).
Proof.
  intros Htick n. induction n as [|n IH]; intros st Hst.
  - exact Hst.
  - cbn [while_True]. apply wp_bind.
    eapply wp_mono; [exact (Htick st Hst)|].
    intros st1 [[]|e| |] H1; try contradiction; try exact H1.
    now apply IH.
Qed.

Lemma paced_after_ticks st : paced_between_ticks st -> paced (history st).
Proof. unfold paced_between_ticks, paced. lia. Qed.

Lemma tick_paced w st :
  paced_between_ticks st ->
  wp (tick w) st (fun st' r =>
    match r with
    | Returned _ => paced_between_ticks st'
    | Raised _ => paced (history st')
    | _ => False
    end).
Proof.
  intros (Hpoll & Hnav & Hsum).
  eapply wp_mono; [apply tick_counts|].
  intros st' r (evs & Hh & _ & Kpoll & Knav & Ksum & _ & Kr).
  unfold paced_between_ticks, paced. rewrite Hh, !count_app.
  destruct r as [[]|e| |]; try exact Kr; [destruct Kr as [Kr _]|]; lia.
Qed.

Lemma main_paced w fuel :
  wp (main w fuel) initial_state (fun st' r =>
    match r with
    | OutOfFuel => paced_between_ticks st'
    | Raised _ => paced (history st')
    | _ => False
    end).
Proof.
  unfold main. wp_go.
  all: try (apply while_True_outcome;
            [apply tick_paced | unfold paced_between_ticks; cbn; lia]).
  all: unfold paced; cbn; lia.
Qed.

(** X2. Pacing. In the history of the program, whenever it is looked at,
    the reads of the current address outnumber the completed five second
    sleeps by one at most, there are no more navigations than reads, and no
    more calls of the summarization service than navigations: the loop
    never polls, reloads or summarizes faster than once per sleep. *)
Theorem run_is_paced w fuel :
  paced (history (entry_point w fuel initial_state).1).
Proof.
  change (wp (entry_point w fuel) initial_state
            (fun st' _ => paced (history st'))).
  unfold entry_point.
  apply wp_try_finally, wp_try_except_KeyboardInterrupt.
  eapply wp_mono; [apply main_paced|].
  intros st1 [[]|e| |] H1; try contradiction.
  - destruct e as [msg| |]; wp_red; wp_go.
    all: unfold record; cbn [history]; unfold paced in *.
    all: rewrite !count_app; cbn; lia.
  - now apply paced_after_ticks.
Qed.

(** ** What the set of processed addresses holds *)

(** X3. Whenever and however the program stops, every processed address
    is one the loop accepts: none is empty, none starts with [about:]. *)
Theorem processed_addresses_are_valid w fuel :
  all_valid (entry_point w fuel initial_state).1.
Proof.
  change (wp (entry_point w fuel) initial_state (fun st' _ => all_valid st')).
  apply entry_point_invariant.
  - intros st _ u Hu. cbn in Hu. now apply not_elem_of_empty in Hu.
  - intros st line i Hst u Hu. exact (Hst u Hu).
  - intros st r Hst u Hu. exact (Hst u Hu).
  - intros st Hst. eapply wp_mono; [apply tick_processed|].
    intros st' r [evs [_ [[Hp _]|(u & el & text & c & rest & i & Hv & _ & Hp & _)]]];
      intros v Hin; rewrite Hp in Hin.
    + exact (Hst v Hin).
    + apply elem_of_union in Hin as [Hin|Hin]; [|exact (Hst v Hin)].
      apply elem_of_singleton in Hin. now subst v.
  - intros u Hu. cbn in Hu. now apply not_elem_of_empty in Hu.
Qed.

Lemma summary_line_recognised x :
  startswith ("Summary:" +:+ nl +:+ x) ("Summary:" +:+ nl) = true.
Proof. cbn. now destruct x. Qed.

Lemma summarized_from_app page h1 h2 :
  summarized_from page (h1 ++ h2) =
  summarized_from page h1 ++ summarized_from (page_after page h1) h2.
Proof.
  revert page. induction h1 as [|ev h1 IH]; intros page; [reflexivity|].
  destruct ev; cbn [app summarized_from page_after]; rewrite IH;
    try reflexivity; apply app_assoc.
Qed.

Lemma length_summarized_from page h :
  length (summarized_from page h) = count is_printed_summary h.
Proof.
  unfold count. revert page.
  induction h as [|ev h IH]; intros page; [reflexivity|].
  destruct ev as [| | | | | | |line [[]|e]];
    cbn [summarized_from List.filter is_printed_summary];
    try destruct (startswith line _); cbn [app length];
    now rewrite IH.
Qed.

Lemma tick_summarizes_new_addresses w st :
  wp (tick w) st (fun st' _ =>
    exists evs, history st' = history st ++ evs /\
      ((processed_urls st' = processed_urls st /\
        forall page, summarized_from page evs = []) \/
       exists u, (u ∉ processed_urls st) /\
         processed_urls st' = {[u]} ∪ processed_urls st /\
         forall page, summarized_from page evs = [u])).
Proof.
  wp_go.
  all: hist; eexists; (split; [reflexivity|]).
  all: cbn [processed_urls].
  all: first
    [ left; split; [reflexivity|]
    | right; eexists; split; [apply guard_new; eassumption|];
      split; [reflexivity|] ].
  all: intros page; cbn [summarized_from is_printed_summary app];
       rewrite ?summary_line_recognised; reflexivity.
Qed.

Lemma no_summary_twice_tick w st :
  no_summary_twice st ->
  wp (tick w) st (fun st' _ => no_summary_twice st').
Proof.
  intros [Hnd Hp]. eapply wp_mono; [apply tick_summarizes_new_addresses|].
  intros st' _ (evs & Hh & [[Hp' Hs] | (u & Hu & Hp' & Hs)]);
    unfold no_summary_twice; rewrite Hh, summarized_from_app, Hs, Hp'.
  - rewrite app_nil_r. now split.
  - split.
    + apply NoDup_app. split; [exact Hnd|]. split; [|apply NoDup_singleton].
      intros x Hx Hx'. apply list_elem_of_singleton in Hx'. subst x.
      apply Hu. rewrite Hp. now apply elem_of_list_to_set.
    + rewrite list_to_set_app_L, Hp. cbn [list_to_set].
      rewrite (right_id_L ∅ (∪)). apply (comm_L (∪)).
Qed.

Lemma no_summary_twice_print st line r :
  startswith line ("Summary:" +:+ nl) = false ->
  no_summary_twice st -> no_summary_twice (record (EvPrint line r) st).
Proof.
  intros Hl [Hnd Hp]. unfold no_summary_twice, record.
  cbn [history processed_urls]. rewrite summarized_from_app.
  cbn [summarized_from is_printed_summary]. rewrite Hl.
  destruct r; cbn [app]; rewrite app_nil_r; now split.
Qed.

Lemma no_summary_twice_quit st r :
  no_summary_twice st -> no_summary_twice (record (EvQuit r) st).
Proof.
  intros [Hnd Hp]. unfold no_summary_twice, record.
  cbn [history processed_urls]. rewrite summarized_from_app.
  cbn [summarized_from is_printed_summary app]. rewrite app_nil_r. now split.
Qed.

Lemma main_no_summary_twice w fuel :
  wp (main w fuel) initial_state (fun st' r =>
    no_summary_twice st' /\ (r = OutOfFuel \/ exists e, r = Raised e)).
Proof.
  assert (no_summary_twice (State ∅ [])) as Hinit
    by (split; [apply NoDup_nil_2 | reflexivity]).
  unfold main. wp_go.
  all: try (apply while_True_invariant; [apply no_summary_twice_tick|]).
  all: try (split; [|right; eauto]).
  all: repeat (apply no_summary_twice_print; [reflexivity|]).
  all: exact Hinit.
Qed.

(** X4. Whenever and however the program stops, the addresses whose
    summary was printed to the end are pairwise different and are exactly
    the processed addresses: no address has its summary printed twice, no
    printed summary goes unrecorded, and the set has as many members as
    summaries were printed.  (A summary whose [print] raised is not among
    them: its address is not recorded.) *)
Theorem one_summary_per_processed_address w fuel :
  let st := (entry_point w fuel initial_state).1 in
  let l := summarized_from "" (history st) in
  NoDup l /\ processed_urls st = list_to_set l /\ summaries_recorded st.
Proof.
  intros st l.
  assert (no_summary_twice st) as [Hnd Hp].
  { subst st.
    change (wp (entry_point w fuel) initial_state
              (fun st' _ => no_summary_twice st')).
    unfold entry_point.
    apply wp_try_finally, wp_try_except_KeyboardInterrupt.
    eapply wp_mono; [apply main_no_summary_twice|].
    intros st1 r1 [H1 [-> | [e ->]]]; [exact H1|].
    destruct e as [msg| |]; wp_red; wp_go.
    all: repeat first
           [ apply no_summary_twice_quit
           | apply no_summary_twice_print; [reflexivity|] ].
    all: exact H1. }
  split; [exact Hnd|]. split; [exact Hp|].
  unfold summaries_recorded. rewrite Hp, size_list_to_set by exact Hnd.
  apply length_summarized_from.
Qed.

(** ** A session that stays lost *)




(** ** The answers of the service *)

Lemma tick_handles_answers w st :
  wp (tick w) st (fun st' _ =>
    forall pre ev post,
      new_events st st' = pre ++ ev :: post ->
      answer_handled st st' (new_events st st') ev post).
Proof.
  wp_go.
  all: hist; apply each_with_rest_split.
  all: cbn [each_with_rest answer_handled address_read processed_urls].
  all: repeat split; eauto.
  all: do 2 eexists; split; [reflexivity | intros Hi; discriminate Hi].
Qed.

(** X6. After the summarization service has answered in a tick: if the
    answer has no choice, the tick logs the [IndexError] as a
    summarization error and leaves the set as it was; otherwise it prints
    the content of the first choice and ignores the others, a missing
    content being printed as [None], and once the print has completed the
    address the tick read is marked as processed. *)
Theorem service_answers_are_handled w st pre ev post :
  let run := tick w st in
  let evs := new_events st run.1 in
  evs = pre ++ ev :: post ->
  answer_handled st run.1 evs ev post.
Proof. intros run evs. exact (tick_handles_answers w st pre ev post). Qed.

Lemma service_answers_are_handled_witness :
  let w := silent_service [p1] in
  let run := tick w initial_state in
  let evs := new_events initial_state run.1 in
  answer_handled initial_state run.1 evs
    (EvCreate "gpt-4"
       [Message "user" ("Summarize this text:" +:+ nl +:+ "page text")]
       (Ok [None]))
    [EvPrint ("Summary:" +:+ nl +:+ "None" +:+ nl) (Ok tt); EvSleep 5 false].
Proof.
  intros w run evs.
  apply (service_answers_are_handled w initial_state
           (take 6 (success_events p1 7 "page text" None []))).
  vm_compute. reflexivity.
Defined.

(** ** Extraction *)

Lemma extraction_run w url st :
  wp (extract_text_from_url w url) st (fun st' r =>
    processed_urls st' = processed_urls st /\
    (exists p rest, new_events st st' = EvGet url p :: rest) /\
    (forall text,
       r = Returned text <->
       exists el, new_events st st' = extraction_events url el text) /\
    (forall e,
       r = Raised e ->
       exists pre ev,
         new_events st st' = pre ++ [ev] /\
         forallb clean pre = true /\
         (failure_of ev = Some e \/
          ev = EvSleep 2 true /\ e = KeyboardInterrupt))).
Proof.
  wp_go.
  all: hist; split; [reflexivity|]; split; [eauto|]; split.
  all: try (intros text; split;
            [ intros Hr; try discriminate Hr; simplify_eq; eauto
            | intros [el Hev]; unfold extraction_events in Hev;
              try discriminate Hev; now simplify_eq ]).
  all: intros e' He; try discriminate He; simplify_eq.
  all: lazymatch goal with
       | |- exists pre ev, ?l = _ /\ _ =>
           let n := eval cbv in (length l - 1) in
           exists (take n l); eexists; split; [reflexivity|]
       end.
  all: split; [reflexivity|]; first [left; reflexivity | right; now split].
Qed.

(** X7. [extract_text_from_url(url)] leaves the set of processed
    addresses alone and starts by navigating to [url].  It returns a text
    exactly when the navigation, the two second sleep, the search of the
    body and the read of its text all succeeded, and the text is the one
    read.  When it raises, the exception is that of its last operation,
    every operation before it succeeded and none is attempted after it. *)
Theorem extraction_stops_at_first_failure w url st :
  let run := extract_text_from_url w url st in
  let evs := new_events st run.1 in
  processed_urls run.1 = processed_urls st /\
  (exists p rest, evs = EvGet url p :: rest) /\
  (forall text,
     run.2 = Returned text <->
     exists el, evs = extraction_events url el text) /\
  (forall e,
     run.2 = Raised e ->
     exists pre ev,
       evs = pre ++ [ev] /\
       forallb clean pre = true /\
       (failure_of ev = Some e \/
        ev = EvSleep 2 true /\ e = KeyboardInterrupt)).
Proof. intros run evs. exact (extraction_run w url st). Qed.

Lemma extraction_stops_at_first_failure_witness :
  let w := flaky_browsing [p1] in
  let run := extract_text_from_url w p1 initial_state in
  exists pre ev,
    new_events initial_state run.1 = pre ++ [ev] /\
    forallb clean pre = true /\
    (failure_of ev = Some (PyException "timeout") \/
     ev = EvSleep 2 true /\ PyException "timeout" = KeyboardInterrupt).
Proof.
  intros w run.
  apply (proj2 (proj2 (proj2
           (extraction_stops_at_first_failure w p1 initial_state)))).
  vm_compute. reflexivity.
Defined.

(** ** How the program ends *)

(** X8. Let the loop be ended by the exception [e].  After a
    [KeyboardInterrupt] the program prints [Exiting...] and calls
    [driver.quit()]; it then ends normally when that print returned, and
    with the exception of that print when it raised one.  After any other
    exception, such as the [OSError] of a [print] of the loop, it calls
    [driver.quit()] without printing and [e] goes on to the caller.  In
    both cases an exception raised by [driver.quit()] itself is the one the
    program ends with.  The set of processed addresses is not touched. *)
Theorem program_exit w fuel e :
  (main w fuel initial_state).2 = Raised e ->
  let st1 := (main w fuel initial_state).1 in
  let run := entry_point w fuel initial_state in
  processed_urls run.1 = processed_urls st1 /\
  if is_KeyboardInterrupt e then
    let p := w_print w (history st1) "Exiting..." in
    let q := w_quit w (history st1 ++ [EvPrint "Exiting..." p]) in
    history run.1 = history st1 ++ [EvPrint "Exiting..." p; EvQuit q] /\
    run.2 = match q with
            | Fail e' => Raised e'
            | Ok _ => outcome_of p
            end
  else
    let q := w_quit w (history st1) in
    history run.1 = history st1 ++ [EvQuit q] /\
    run.2 = match q with
            | Fail e' => Raised e'
            | Ok _ => Raised e
            end.
Proof.
  intros Hmain st1 run. subst st1 run.
  unfold entry_point, try_finally, try_except_KeyboardInterrupt.
  destruct (main w fuel initial_state) as [st1 r]. cbn [fst snd] in *.
  subst r.
  destruct e as [msg| |]; cbn [is_KeyboardInterrupt].
  - unfold driver_quit, foreign, record. cbn [history processed_urls].
    destruct (w_quit w (history st1)) as [[]|e']; cbn; auto.
  - unfold print, driver_quit, foreign, record.
    cbn [history processed_urls].
    destruct (w_print w (history st1) "Exiting...") as [[]|e''];
      cbn [outcome_of history processed_urls fst snd];
      destruct (w_quit w _) as [[]|e']; cbn;
      rewrite <- app_assoc; auto.
  - unfold driver_quit, foreign, record. cbn [history processed_urls].
    destruct (w_quit w (history st1)) as [[]|e']; cbn; auto.
Qed.

Lemma program_exit_witness :
  (let w := browsing [p1] in
   let st1 := (main w 4 initial_state).1 in
   let run := entry_point w 4 initial_state in
   processed_urls run.1 = processed_urls st1 /\
   history run.1 =
     history st1 ++ [EvPrint "Exiting..." (Ok tt); EvQuit (Ok tt)] /\
   run.2 = Returned tt) /\
  (let w := closed_terminal in
   let st1 := (main w 3 initial_state).1 in
   let run := entry_point w 3 initial_state in
   processed_urls run.1 = processed_urls st1 /\
   history run.1 = history st1 ++ [EvQuit (Ok tt)] /\
   run.2 = Raised (PyException "[Errno 32] Broken pipe")).
Proof.
  split.
  - intros w st1 run.
    apply (program_exit w 4 KeyboardInterrupt).
    vm_compute. reflexivity.
  - intros w st1 run.
    apply (program_exit w 3 (PyException "[Errno 32] Broken pipe")).
    vm_compute. reflexivity.
Defined.

(** ** Growth of the set of processed addresses *)

Lemma tick_adds_at_most_one w st :
  wp (tick w) st (fun st' r =>
    processed_urls st ⊆ processed_urls st' /\
    history st `prefix_of` history st' /\
    size (processed_urls st') <= size (processed_urls st) + 1 /\
    (r = Returned tt \/ exists e, r = Raised e)).
Proof.
  eapply wp_mono; [apply tick_processed|].
  intros st' r [evs [Hh [[Hp Hr]|(u & el & text & c & rest & i & _ & Hnew & Hp & _ & Hr)]]].
  - rewrite Hp, Hh. repeat split; [done | now apply prefix_app_r | lia |].
    destruct Hr as [?|[e ?]]; eauto.
  - rewrite Hp, Hh. split; [apply union_subseteq_r|].
    split; [now apply prefix_app_r|]. split.
    + rewrite size_union by now apply disjoint_singleton_l.
      rewrite size_singleton. lia.
    + subst r. destruct i; cbn; eauto.
Qed.

(** X9. Over any number of ticks, and also when an exception ends the
    loop, the set of processed addresses never loses a member and gains at
    most one address per tick, and the history is only appended to. *)
Theorem processed_set_only_grows w n st :
  let run := while_True n (loop_body w) st in
  processed_urls st ⊆ processed_urls run.1 /\
  history st `prefix_of` history run.1 /\
  size (processed_urls run.1) <= size (processed_urls st) + n.
Proof.
  revert st. induction n as [|n IH]; intros st run; subst run.
  - cbn [while_True fst]. repeat split; [done | done | lia].
  - change (wp (while_True (S n) (loop_body w)) st (fun st' _ =>
      processed_urls st ⊆ processed_urls st' /\
      history st `prefix_of` history st' /\
      size (processed_urls st') <= size (processed_urls st) + S n)).
    cbn [while_True]. apply wp_bind.
    eapply wp_mono; [apply tick_adds_at_most_one|].
    intros st1 r (Hsub & Hpre & Hsize & Hr).
    destruct r as [[]|e| |].
    + specialize (IH st1). cbn zeta in IH.
      destruct IH as (Hsub2 & Hpre2 & Hsize2).
      split; [etrans; eassumption|]. split; [etrans; eassumption | lia].
    + repeat split; [assumption | assumption | lia].
    + destruct Hr as [Hr|[e Hr]]; discriminate Hr.
    + destruct Hr as [Hr|[e Hr]]; discriminate Hr.
Qed.

(** * Properties of the dependency installation *)

Lemma orderly_nil w : Bootstrap.orderly w [] [] (Bootstrap.Done tt).
Proof.
  unfold Bootstrap.orderly. cbn.
  repeat lazymatch goal with |- _ /\ _ => split end; try done.
  intros pre ev post Heq. now destruct pre.
Qed.

Lemma in_order_post w pre ev post more :
  Bootstrap.expected ev = true ->
  Bootstrap.in_order w pre ev post ->
  Bootstrap.in_order w pre ev (post ++ more).
Proof.
  intros Hev [_ H]. split; [intros Hn; congruence|].
  destruct ev as [name [[]|[msg|n|e]]|args r|line r]; try exact I.
  - destruct H as (p & tail & -> & Hp).
    exists p, (tail ++ more). split; [reflexivity|].
    intros Hok. destruct (Hp Hok) as (r & tail' & ->).
    now exists r, (tail' ++ more).
  - destruct H as (pre' & name & msg & Hpre & Hargs & Hrep).
    exists pre', name, msg. split; [exact Hpre|]. split; [exact Hargs|].
    intros _. destruct (Hrep Hev) as (p & tail & ->).
    now exists p, (tail ++ more).
Qed.

Lemma in_order_pre w more pre ev post :
  Bootstrap.in_order w pre ev post ->
  Bootstrap.in_order w (more ++ pre) ev post.
Proof.
  intros [Hlast H]. split; [exact Hlast|].
  destruct ev as [name r|args r|line r]; try exact H.
  destruct H as (pre' & name & msg & -> & Hargs & Hrep).
  exists (more ++ pre'), name, msg. now rewrite app_assoc.
Qed.

Lemma orderly_seq w l1 l2 e1 e2 out :
  Bootstrap.orderly w l1 e1 (Bootstrap.Done tt) ->
  Bootstrap.orderly w l2 e2 out ->
  Bootstrap.orderly w (l1 ++ l2) (e1 ++ e2) out.
Proof.
  intros (_ & _ & H1 & _ & Hq1 & Ho1) (Hi & Hc & Hd & Ht & He & Ho).
  destruct (H1 eq_refl) as [Hi1 Hc1].
  pose proof (proj2 Hq1 eq_refl) as Hexp1.
  unfold Bootstrap.orderly, Bootstrap.imported, Bootstrap.missing,
    Bootstrap.commands in *.
  rewrite !omap_app, fmap_app, Hi1, Hc1.
  split; [now apply prefix_app|]. split; [now apply prefix_app|].
  split; [|split; [|split]].
  - intros Hout. destruct (Hd Hout) as [-> ->]. now split.
  - intros e Hout. destruct (Ht e Hout) as (pre & ev & -> & Hev).
    exists (e1 ++ pre), ev. now rewrite app_assoc.
  - rewrite forallb_app, Hexp1. cbn [andb]. exact He.
  - intros pre ev post Heq.
    apply app_eq_inv in Heq as [(k & -> & Hk)|(k & -> & ->)].
    + destruct k as [|ev' k]; cbn [app] in Hk.
      * rewrite <- (app_nil_r pre). apply in_order_pre.
        apply (Ho [] ev post). now rewrite Hk.
      * injection Hk as <- ->.
        rewrite forallb_app in Hexp1.
        apply andb_prop in Hexp1 as [_ Hexp1]. cbn [forallb] in Hexp1.
        apply andb_prop in Hexp1 as [Hev _].
        apply in_order_post; [exact Hev|]. now apply (Ho1 pre ev k).
    + apply in_order_pre. now apply (Ho k ev post).
Qed.

Lemma orderly_stop w l1 l2 e1 e :
  Bootstrap.orderly w l1 e1 (Bootstrap.Threw e) ->
  Bootstrap.orderly w (l1 ++ l2) e1 (Bootstrap.Threw e).
Proof.
  intros (Hi & Hc & _ & Ht & He & Ho).
  split; [now apply prefix_app_r|]. split; [exact Hc|].
  split; [discriminate|]. split; [exact Ht|]. split; [exact He | exact Ho].
Qed.

Lemma in_order_intro w evs :
  Bootstrap.each_in_place (Bootstrap.in_order w) [] evs ->
  forall pre ev post, evs = pre ++ ev :: post -> Bootstrap.in_order w pre ev post.
Proof.
  intros H pre ev post Heq.
  assert (forall p l, Bootstrap.each_in_place (Bootstrap.in_order w) p l ->
            forall pre, l = pre ++ ev :: post ->
              Bootstrap.in_order w (p ++ pre) ev post) as Hgen.
  { intros p l. revert p. induction l as [|x l IH]; intros p Hl pre0 E.
    - now destruct pre0.
    - destruct Hl as [Hx Hl]. destruct pre0 as [|y pre0]; cbn [app] in E.
      + injection E as -> ->. now rewrite app_nil_r.
      + injection E as -> ->.
        replace (p ++ y :: pre0) with ((p ++ [y]) ++ pre0)
          by now rewrite <- app_assoc.
        now apply IH. }
  exact (Hgen [] evs H pre Heq).
Qed.

Ltac boot_case :=
  match goal with
  | |- context [Bootstrap.w_import ?w ?h ?p] =>
      destruct (Bootstrap.w_import w h p) as [[]|[?|?|?]]
  | |- context [Bootstrap.w_print ?w ?h ?l] =>
      destruct (Bootstrap.w_print w h l) as [[]|?]
  | |- context [Bootstrap.w_check_call ?w ?h ?a] =>
      destruct (Bootstrap.w_check_call w h a) as [[]|[?|?|?]]
  end.

Ltac boot_red :=
  cbv beta iota zeta delta
    [Bootstrap.try_except_ImportError Bootstrap.import_ Bootstrap.bind
     Bootstrap.print Bootstrap.install_dependency
     Bootstrap.try_except_CalledProcessError Bootstrap.check_call].

Ltac in_order_case :=
  first
    [ exact I
    | let H := fresh in intros H; first [discriminate H | reflexivity]
    | solve [ do 2 eexists; split; [reflexivity|];
              let H := fresh in
              intros H; first [discriminate H | do 2 eexists; reflexivity] ]
    | solve [ exists []; do 2 eexists; split; [reflexivity|];
              split; [reflexivity|];
              let H := fresh in
              intros H; first [discriminate H | do 2 eexists; reflexivity] ] ].

Lemma check_orderly w pkg h :
  let run :=
    Bootstrap.try_except_ImportError (Bootstrap.import_ w pkg)
      (Bootstrap.bind (Bootstrap.print w (Bootstrap.announcement pkg))
         (fun _ => Bootstrap.install_dependency w pkg)) h in
  exists evs, run.1 = h ++ evs /\ Bootstrap.orderly w [pkg] evs run.2.
Proof.
  boot_red.
  all: repeat (boot_case; boot_red).
  all: cbn [fst snd].
  all: rewrite <- ?app_assoc; cbn [app]; eexists; (split; [reflexivity|]).
  all: unfold Bootstrap.orderly.
  all: repeat lazymatch goal with |- _ /\ _ => split end.
  all: try (apply in_order_intro;
            cbn [Bootstrap.each_in_place app]; unfold Bootstrap.in_order;
            cbn [Bootstrap.expected];
            repeat lazymatch goal with |- _ /\ _ => split end;
            in_order_case).
  all: unfold Bootstrap.pip_install; cbn.
  all: try done.
  all: try apply prefix_nil.
  all: try (intros ? ?; simplify_eq).
  all: lazymatch goal with
       | |- exists pre ev, ?l = _ /\ _ =>
           let n := eval cbv in (length l - 1) in
           exists (take n l); eexists; split; reflexivity
       end.
Qed.

Lemma for_each_orderly w (body : string -> Bootstrap.B unit) packages :
  (forall pkg h, pkg ∈ packages -> exists evs,
     (body pkg h).1 = h ++ evs /\ Bootstrap.orderly w [pkg] evs (body pkg h).2) ->
  forall h, exists evs,
    (Bootstrap.for_each packages body h).1 = h ++ evs /\
    Bootstrap.orderly w packages evs (Bootstrap.for_each packages body h).2.
Proof.
  induction packages as [|pkg packages IH]; intros Hbody h.
  - exists []. cbn. rewrite app_nil_r. split; [reflexivity | apply orderly_nil].
  - cbn [Bootstrap.for_each]. unfold Bootstrap.bind.
    destruct (Hbody pkg h (list_elem_of_here _ _)) as (e1 & Hh1 & Ho1).
    destruct (body pkg h) as [h1 [[]|e]]; cbn [fst snd] in *; subst h1.
    + destruct (IH (fun p h0 Hp => Hbody p h0 (list_elem_of_further _ _ _ Hp))
                   (h ++ e1)) as (e2 & Hh2 & Ho2).
      exists (e1 ++ e2). split; [now rewrite app_assoc|].
      now apply (orderly_seq w [pkg] packages).
    + exists e1. split; [reflexivity|].
      now apply (orderly_stop w [pkg] packages).
Qed.

Lemma boot_bind_eq {A C} (m : Bootstrap.B A) (k : A -> Bootstrap.B C) h :
  Bootstrap.bind m k h =
    match m h with
    | (h', Bootstrap.Done a) => k a h'
    | (h', Bootstrap.Threw e) => (h', Bootstrap.Threw e)
    end.
Proof. reflexivity. Qed.

Lemma announcement_base pkg :
  pkg ∈ Bootstrap.BASE_DEPENDENCIES ->
  Bootstrap.announcement pkg =
    "Dependency " +:+ pkg +:+ " is not installed. Attempting to install...".
Proof. intros H. unfold Bootstrap.announcement. now rewrite bool_decide_eq_true_2. Qed.

Lemma announcement_os w :
  Bootstrap.announcement (Bootstrap.os_dependency w) =
    "OS-specific dependency " +:+ Bootstrap.os_dependency w
    +:+ " is not installed. Attempting to install...".
Proof.
  unfold Bootstrap.os_dependency.
  destruct (String.eqb (Bootstrap.os_name w) "nt"); reflexivity.
Qed.

Lemma check_and_install_orderly w h :
  exists evs,
    (Bootstrap.check_and_install_dependencies w h).1 = h ++ evs /\
    Bootstrap.orderly w (Bootstrap.dependencies w) evs
      (Bootstrap.check_and_install_dependencies w h).2.
Proof.
  unfold Bootstrap.check_and_install_dependencies, Bootstrap.dependencies.
  rewrite boot_bind_eq.
  match goal with
  | |- context [Bootstrap.for_each ?l ?body h] =>
      assert (forall pkg h0, pkg ∈ l -> exists evs,
                (body pkg h0).1 = h0 ++ evs /\
                Bootstrap.orderly w [pkg] evs (body pkg h0).2) as Hbody
        by (intros pkg h0 Hpkg; cbv beta;
            rewrite <- (announcement_base pkg Hpkg); apply check_orderly);
      destruct (for_each_orderly w body l Hbody h) as (e1 & Hh1 & Ho1);
      destruct (Bootstrap.for_each l body h) as [h1 [[]|e]]
  end; cbn [fst snd] in *; subst h1.
  - pose proof (check_orderly w (Bootstrap.os_dependency w) (h ++ e1))
      as (e2 & Hh2 & Ho2).
    rewrite announcement_os in Hh2, Ho2.
    unfold Bootstrap.os_dependency in *. cbv zeta in *.
    exists (e1 ++ e2). split; [now rewrite app_assoc|].
    now apply orderly_seq.
  - exists e1. split; [reflexivity|]. now apply orderly_stop.
Qed.

(** X10. [check_and_install_dependencies] is orderly, whatever the import
    system, [pip] and the terminal answer.  It tries [openai], [selenium]
    and then the window manager library of the platform ([pygetwindow]
    when [os.name] is [nt], [pywinctl] otherwise), in this order.  An
    import that raises [ImportError] is followed at once by the
    announcement of the installation and, when that print completed, by
    [pip]; [pip] is run only there, right after such an import and its
    announcement, with the command [sys.executable -m pip install <module>]
    for the module of that import, and its success or its
    [CalledProcessError] is reported by the next print.  A failed
    installation does not stop the checks: the function returns exactly
    when every import ended normally or with [ImportError], every [pip]
    ended normally or with [CalledProcessError] and every print completed,
    and then all three modules were tried.  Any other exception is the
    last operation of the function and is the exception it raises. *)
Theorem dependencies_are_checked_in_order w h :
  let run := Bootstrap.check_and_install_dependencies w h in
  h `prefix_of` run.1 /\
  Bootstrap.orderly w (Bootstrap.dependencies w)
    (Bootstrap.new_events h run.1) run.2.
Proof.
  intros run. subst run.
  destruct (check_and_install_orderly w h) as (evs & Hh & Ho).
  unfold Bootstrap.new_events. rewrite Hh, drop_app_length.
  split; [now apply prefix_app_r | exact Ho].
Qed.

Lemma dependencies_are_checked_in_order_witness :
  let w := Bootstrap.offline "posix" in
  let run := Bootstrap.check_and_install_dependencies w [] in
  run.2 = Bootstrap.Done tt /\
  Bootstrap.imported (Bootstrap.new_events [] run.1) =
    ["openai"; "selenium"; "pywinctl"] /\
  Bootstrap.commands (Bootstrap.new_events [] run.1) =
    [["/usr/bin/python3"; "-m"; "pip"; "install"; "selenium"]].
Proof.
  intros w run.
  destruct (dependencies_are_checked_in_order w [])
    as (_ & _ & _ & Hdone & _ & Hquiet & _).
  assert (run.2 = Bootstrap.Done tt) as Hr
    by (apply (proj1 Hquiet); vm_compute; reflexivity).
  split; [exact Hr|]. destruct (Hdone Hr) as [Hi Hc].
  split; [exact Hi | exact Hc].
Defined.
